(** * libdeflate: CRC-32 table generation and the option parser of the tools

    A shallow embedding of [tools/gen_crc32_table.c] (the bit and byte steps
    of the reflected CRC-32 and the three table-filling loops of [main]) and
    of [parse_compression_level] from [programs/prog_util.c].

    C integers are modelled as [Z]; a conversion that can truncate is written
    out ([u8], [ulong], [to_int]).  The statically allocated arrays are lists
    updated in place by index. *)

From Stdlib Require Import ZArith List Bool Lia Btauto Ascii String.
From stdpp Require Import base list.
Import ListNotations.

Local Open Scope Z_scope.

(** ** Machine integers *)

(** Conversion to [uint8_t]. *)
Definition u8 (x : Z) : Z := x mod 2 ^ 8.

Definition is_u8 (x : Z) : Prop := 0 <= x < 2 ^ 8.
Definition is_u32 (x : Z) : Prop := 0 <= x < 2 ^ 32.

(** A C [for (i = lo; i < hi; i++)] loop whose body transforms a state. *)
Definition for_loop {S : Type} (lo hi : nat) (body : nat -> S -> S) (s : S) : S :=
  fold_left (fun acc i => body i acc) (seq lo (hi - lo)) s.

(** ** The generator: [tools/gen_crc32_table.c] *)

Module Gen.

(** [crc32_update_bit]: one cycle of the reflected shift register.  On a
    32-bit remainder neither the right shift nor the XOR with the polynomial
    leaves 32 bits ([update_bit_u32] below), so no truncation is written. *)
Definition crc32_update_bit (remainder next_bit : Z) : Z :=
  Z.lxor (Z.shiftr remainder 1)
         (if Z.land (Z.lxor remainder next_bit) 1 =? 0 then 0 else 0xEDB88320).

(** The body of the loop of [crc32_update_byte], run [n] times:
    [remainder = crc32_update_bit(remainder, next_byte & 1)] and then
    [next_byte >>= 1] on a [uint8_t]. *)
Fixpoint update_byte_loop (n : nat) (remainder next_byte : Z) : Z :=
  match n with
  | O => remainder
  | S n' =>
      update_byte_loop n'
        (crc32_update_bit remainder (Z.land next_byte 1))
        (u8 (Z.shiftr next_byte 1))
  end.

(** [crc32_update_byte]: eight bit steps, least significant bit first.  The
    parameter is a [uint8_t], so the argument is converted on entry. *)
Definition crc32_update_byte (remainder next_byte : Z) : Z :=
  update_byte_loop 8 remainder (u8 next_byte).

(** The two static arrays of the program. *)
Record tables : Type := Tables {
  crc32_table : list Z;
  crc32_rolling : list Z
}.

(** Static storage is zero-initialised. *)
Definition tables_init : tables :=
  Tables (replicate 0x800 0) (replicate 0x100 0).

(** First loop of [main]: [crc32_table[i] = crc32_update_byte(0, i)]. *)
Definition fill_base (t : list Z) : list Z :=
  for_loop 0 0x100
    (fun i t => <[i := crc32_update_byte 0 (Z.of_nat i)]> t) t.

(** Second loop of [main]:
    [crc32_table[i] = crc32_update_byte(crc32_table[i - 0x100], 0)]. *)
Definition fill_slices (t : list Z) : list Z :=
  for_loop 0x100 0x800
    (fun i t => <[i := crc32_update_byte (t !!! (i - 0x100)%nat) 0]> t) t.

(** The inner loop of the third loop of [main]: sixteen zero bytes. *)
Definition rolling_entry (i : nat) : Z :=
  for_loop 0 16
    (fun _ remainder => crc32_update_byte remainder 0)
    (crc32_update_byte 0 (Z.of_nat i)).

(** Third loop of [main]: [crc32_rolling[i] = remainder]. *)
Definition fill_rolling (t : list Z) : list Z :=
  for_loop 0 0x100 (fun i t => <[i := rolling_entry i]> t) t.

(** The tables as [main] leaves them before printing. *)
Definition main_tables : tables :=
  Tables (fill_slices (fill_base (crc32_table tables_init)))
         (fill_rolling (crc32_rolling tables_init)).

End Gen.

(** ** The checksum engine that consumes the tables *)

Module Engine.
Import Gen.

(** Modelled from the spec: the engine's byte-at-a-time computation, which
    the generator does not contain; it folds the byte step over the data,
    starting from the given remainder. *)
Definition crc32_bytewise (remainder : Z) (data : list Z) : Z :=
  fold_left crc32_update_byte data remainder.

(** Byte [k] of a remainder, least significant first. *)
Definition byte_of (remainder : Z) (k : nat) : Z :=
  Z.land (Z.shiftr remainder (8 * Z.of_nat k)) 0xFF.

(** The rolling-window width. *)
Definition W : nat := 16.

(** The bytes of the window of a stream at [offset]. *)
Definition window_bytes (stream : list Z) (offset : nat) : list Z :=
  take W (drop offset stream).

(** The window record: the offset of the window and its rolling checksum. *)
Record window : Type := Window { w_offset : nat; w_value : Z }.

Record scan_state : Type := ScanState {
  current : window;
  observed : list window;
  reported : list (nat * nat)
}.

(** The earlier windows whose value equals that of [w], as offset pairs. *)
Definition candidates (earlier : list window) (w : window) : list (nat * nat) :=
  map (fun e => (w_offset e, w_offset w))
      (List.filter (fun e => w_value e =? w_value w) earlier).

Section WithTables.

(** The engine reads the tables as compiled-in constants; the properties
    below are stated for the tables the generator produces. *)
Variable t : tables.

(** Entry [b] of table group [k] of [crc32_table]. *)
Definition group (k : nat) (b : Z) : Z :=
  crc32_table t !!! (k * 0x100 + Z.to_nat b)%nat.

(** Modelled from the spec: one slice-by-N step of the engine, which the
    generator does not contain.  The k-th byte of the chunk, combined with
    the k-th byte of the previous remainder, indexes table group [N-1-k];
    the lookups are XORed together with what is left of the remainder once
    [N] bytes are shifted out of it. *)
Definition slice_step (N : nat) (remainder : Z) (chunk : list Z) : Z :=
  fold_left Z.lxor
    (imap (fun k d => group (N - 1 - k) (Z.lxor (byte_of remainder k) d)) chunk)
    (Z.shiftr remainder (8 * Z.of_nat N)).

(** Modelled from the spec: the engine's slice-by-4 computation, which the
    generator does not contain: as many full groups of four bytes as fit,
    then single-byte steps. *)
Fixpoint crc32_slice4 (remainder : Z) (data : list Z) : Z :=
  match data with
  | d0 :: d1 :: d2 :: d3 :: rest =>
      crc32_slice4 (slice_step 4 remainder [d0; d1; d2; d3]) rest
  | _ => crc32_bytewise remainder data
  end.

(** Modelled from the spec: the engine's slice-by-8 computation, which the
    generator does not contain: as many full groups of eight bytes as fit,
    then single-byte steps. *)
Fixpoint crc32_slice8 (remainder : Z) (data : list Z) : Z :=
  match data with
  | d0 :: d1 :: d2 :: d3 :: d4 :: d5 :: d6 :: d7 :: rest =>
      crc32_slice8
        (slice_step 8 remainder [d0; d1; d2; d3; d4; d5; d6; d7]) rest
  | _ => crc32_bytewise remainder data
  end.

(** Modelled from the spec: the engine's rolling update, which the generator
    does not contain as live code (the disabled self-test at the end of
    [main] has the same expression). *)
Definition roll (remainder incoming_byte outgoing_byte : Z) : Z :=
  Z.lxor (crc32_update_byte remainder incoming_byte)
         (crc32_rolling t !!! Z.to_nat outgoing_byte).

(** Modelled from the spec: one step of the engine's duplicate-window scan,
    which the generator does not contain: slide the window by one byte,
    compare the new value with the values observed at earlier offsets,
    report the equal ones, and record the new window. *)
Definition scan_step (st : scan_state) (io : Z * Z) : scan_state :=
  let w := Window (S (w_offset (current st)))
                  (roll (w_value (current st)) (fst io) (snd io)) in
  ScanState w (observed st ++ [w]) (reported st ++ candidates (observed st) w).

(** The state of the scan at the end of the stream; [None] when the stream is
    shorter than one window.  The first window is computed from scratch; the
    byte entering at position [i] is paired with the one leaving, at
    [i - W]. *)
Definition scan_run (stream : list Z) : option scan_state :=
  if (length stream <? W)%nat then None
  else
    let w0 := Window 0 (crc32_bytewise 0 (take W stream)) in
    Some (fold_left scan_step (zip (drop W stream) stream)
                    (ScanState w0 [w0] [])).

(** Modelled from the spec: the engine's duplicate-window scan, which the
    generator does not contain; it returns the candidate pairs in the order
    found. *)
Definition scan (stream : list Z) : list (nat * nat) :=
  match scan_run stream with
  | Some st => reported st
  | None => []
  end.

(** The rolling checksum the scan holds for the window at [offset]. *)
Definition rolling_value (stream : list Z) (offset : nat) : option Z :=
  match scan_run stream with
  | Some st => w_value <$> observed st !! offset
  | None => None
  end.

End WithTables.

(** The bytes of a C string literal. *)
Definition bytes_of_string (s : String.string) : list Z :=
  map (fun c => Z.of_N (Ascii.N_of_ascii c)) (String.list_ascii_of_string s).

Definition stream_ABA : list Z :=
  bytes_of_string "AAAAAAAAAAAAAAAABBBBBBBBBBBBBBBBAAAAAAAAAAAAAAAA"%string.

End Engine.

(** ** [parse_compression_level] of [programs/prog_util.c] *)

Module ProgUtil.

(** What [msg] writes to standard error. *)
Inductive message : Type :=
| Invalid_compression_level (opt_char : Z) (arg : list Z).

(** Conversion of the [unsigned long] result to the [int] return type. *)
Definition to_int (x : Z) : Z := (x + 2 ^ 31) mod 2 ^ 32 - 2 ^ 31.

Section WithUlong.

(** The width of [unsigned long]: 64 on LP64 systems, 32 on Windows. *)
Variable ulong_bits : Z.

Definition ulong (x : Z) : Z := x mod 2 ^ ulong_bits.

(** The loop over the leading decimal digits of [arg]: while the character
    at [p] lies between the digits zero (48) and nine (57), [level] becomes
    [level * 10] plus the digit, in [unsigned long] arithmetic, and [p]
    advances.  A string is the list of its characters; the end of the list
    stands for the terminating NUL.  The result is the level and the rest of
    the string at [p]. *)
Fixpoint digits_loop (level : Z) (p : list Z) : Z * list Z :=
  match p with
  | c :: p' =>
      if (48 <=? c) && (c <=? 57)
      then digits_loop (ulong (level * 10 + (c - 48))) p'
      else (level, p)
  | [] => (level, [])
  end.

(** [parse_compression_level]: the returned [int] and the messages printed.
    [arg] is [None] for a NULL pointer. *)
Definition parse_compression_level (opt_char : Z) (arg : option (list Z))
  : Z * list message :=
  let level := ulong (opt_char - 48) in
  let arg := match arg with None => [] | Some a => a end in
  let '(level, p) := digits_loop level arg in
  if (level <? 1) || (level >? 12) || negb (hd 0 p =? 0)
  then (0, [Invalid_compression_level opt_char arg])
  else (to_int level, []).

End WithUlong.

End ProgUtil.

(** ** Path names: [get_filename] of [programs/prog_util.c] *)

Module ProgPaths.

(** [tstrrchr] of the C library: the position of the last occurrence of [c]
    in the string, or [None] for a null pointer result.  A string is the
    list of its characters before the terminating NUL. *)
Fixpoint tstrrchr (s : list Z) (c : Z) : option nat :=
  match s with
  | [] => None
  | x :: s' =>
      match tstrrchr s' c with
      | Some i => Some (S i)
      | None => if x =? c then Some 0%nat else None
      end
  end.

(** The position in [path] that [get_filename] returns a pointer to.
    [win32] selects the code under [#ifdef _WIN32], where the later of the
    last slash (47) and the last backslash (92) counts. *)
Definition get_filename_pos (win32 : bool) (path : list Z) : nat :=
  let slash := tstrrchr path 47 in
  let slash :=
    if win32 then
      match tstrrchr path 92 with
      | Some b =>
          match slash with
          | None => Some b
          | Some s => if (s <? b)%nat then Some b else Some s
          end
      | None => slash
      end
    else slash in
  match slash with
  | Some s => S s
  | None => 0%nat
  end.

(** [get_filename]: the string the returned pointer points to. *)
Definition get_filename (win32 : bool) (path : list Z) : list Z :=
  drop (get_filename_pos win32 path) path.

(** What [get_filename] treats as a separator. *)
Definition is_sep (win32 : bool) (c : Z) : Prop :=
  c = 47 \/ (win32 = true /\ c = 92).

End ProgPaths.

(** ** Files and streams: the rest of [programs/prog_util.c]

    The functions below call the operating system.  Its answers are the
    [w_script] of a [world]: each system call takes the next entry, a result
    and an [errno] value, and reads it by its own convention; an exhausted
    script answers [(0, 0)].  The calls made are recorded in [w_calls], what
    [msg] and [msg_errno] print in [w_stderr].  The code modelled is the one
    compiled when [_WIN32] is not defined. *)

Module ProgIO.

Definition INT_MAX : Z := 2 ^ 31 - 1.
Definition STDIN_FILENO : Z := 0.
Definition STDOUT_FILENO : Z := 1.
Definition STDERR_FILENO : Z := 2.

(** The character constants of the source. *)
Definition char_dquote : Z := 34.
Definition char_y : Z := 121.

(** The formats given to [msg], [msg_errno] and [fprintf], with the stream
    name they are applied to. *)
Inductive text : Type :=
| Out_of_memory
| Cant_open_for_reading (name : list Z)
| Cant_open_for_writing (name : list Z)
| Already_exists (name : list Z)
| Overwrite_question (name : list Z)
| Not_overwriting
| Unable_to_delete (name : list Z)
| Too_large (name : list Z)
| Unable_to_map (name : list Z)
| Error_reading (name : list Z)
| Unexpected_eof (name : list Z)
| Error_writing (name : list Z)
| Error_closing (name : list Z).

(** One output on standard error: the text and, for [msg_errno], the value
    of [errno] whose description follows it. *)
Record line : Type := Line { l_text : text; l_errno : option Z }.

(** A pointer to a string or buffer: null, a string literal, or a block
    returned by [malloc]. *)
Inductive pointer : Type :=
| Null
| Static
| Heap (addr : Z).

Inductive open_mode : Type :=
| Open_read          (* O_RDONLY | O_BINARY | O_NOFOLLOW *)
| Open_write_excl.   (* O_WRONLY | O_BINARY | O_NOFOLLOW | O_CREAT | O_EXCL *)

(** The system and library calls made, with their results. *)
Inductive call : Type :=
| Malloc (size : Z) (ret : Z)
| Free (p : pointer)
| Open (path : list Z) (mode : open_mode) (ret : Z)
| Close (fd : Z) (ret : Z)
| Unlink (path : list Z) (ret : Z)
| Isatty (fd : Z) (ret : Z)
| Getchar (ret : Z)
| Read (fd : Z) (count : Z) (ret : Z)
| Write (fd : Z) (count : Z) (ret : Z)
| Mmap (size : Z) (fd : Z) (ret : Z)
| Munmap (addr : Z) (size : Z).

Record world : Type := World {
  w_script : list (Z * Z);  (* results and errno values of the coming calls *)
  w_errno : Z;
  w_calls : list call;
  w_stderr : list line;
  w_input : list Z;         (* the bytes not yet read from the descriptor read *)
  w_output : list Z;        (* the bytes written so far *)
  w_junk : list Z           (* what a fresh block of memory happens to hold *)
}.

Definition set_script (s : list (Z * Z)) (w : world) : world :=
  World s (w_errno w) (w_calls w) (w_stderr w) (w_input w) (w_output w)
        (w_junk w).
Definition set_errno (e : Z) (w : world) : world :=
  World (w_script w) e (w_calls w) (w_stderr w) (w_input w) (w_output w)
        (w_junk w).
Definition record_call (c : call) (w : world) : world :=
  World (w_script w) (w_errno w) (w_calls w ++ [c]) (w_stderr w) (w_input w)
        (w_output w) (w_junk w).
Definition print_line (l : line) (w : world) : world :=
  World (w_script w) (w_errno w) (w_calls w) (w_stderr w ++ [l]) (w_input w)
        (w_output w) (w_junk w).
Definition set_input (i : list Z) (w : world) : world :=
  World (w_script w) (w_errno w) (w_calls w) (w_stderr w) i (w_output w)
        (w_junk w).

(** The next answer of the operating system. *)
Definition next_answer (w : world) : Z * Z * world :=
  match w_script w with
  | [] => (0, 0, w)
  | (r, e) :: s => (r, e, set_script s w)
  end.

(** [do_msg]: the program name, the formatted text and, with [with_errno],
    the description of [errno]; [errno] is saved and restored around the
    output. *)
Definition do_msg (t : text) (with_errno : bool) (w : world) : world :=
  print_line (Line t (if with_errno then Some (w_errno w) else None)) w.

Definition msg (t : text) (w : world) : world := do_msg t false w.
Definition msg_errno (t : text) (w : world) : world := do_msg t true w.

(** *** The system calls *)

(** [malloc]: a null pointer is 0, any other answer is the address. *)
Definition sys_malloc (size : Z) (w : world) : Z * world :=
  let '(r, _, w) := next_answer w in
  (r, record_call (Malloc size r) w).

Definition sys_free (p : pointer) (w : world) : world :=
  record_call (Free p) w.

(** A call that returns a non-negative value, or -1 with [errno] set. *)
Definition sys_result (mk : Z -> call) (w : world) : Z * world :=
  let '(r, e, w) := next_answer w in
  if r <? 0 then (-1, record_call (mk (-1)) (set_errno e w))
  else (r, record_call (mk r) w).

(** A call that returns 0, or -1 with [errno] set. *)
Definition sys_status (mk : Z -> call) (w : world) : Z * world :=
  let '(r, e, w) := next_answer w in
  if r =? 0 then (0, record_call (mk 0) w)
  else (-1, record_call (mk (-1)) (set_errno e w)).

Definition sys_open (path : list Z) (mode : open_mode) (w : world)
  : Z * world :=
  sys_result (Open path mode) w.

Definition sys_close (fd : Z) (w : world) : Z * world :=
  sys_status (Close fd) w.

Definition sys_unlink (path : list Z) (w : world) : Z * world :=
  sys_status (Unlink path) w.

(** [isatty] returns 1 or 0. *)
Definition sys_isatty (fd : Z) (w : world) : Z * world :=
  let '(r, _, w) := next_answer w in
  let t := if r =? 0 then 0 else 1 in
  (t, record_call (Isatty fd t) w).

(** [getchar] returns a character or EOF. *)
Definition sys_getchar (w : world) : Z * world :=
  let '(r, _, w) := next_answer w in
  (r, record_call (Getchar r) w).

(** [read] of [count > 0] bytes: a negative answer is a failure; otherwise
    the call delivers the bytes available, at most [count] and, for a
    positive answer [r], at most [r] (a short read).  It returns 0 only at
    the end of the input. *)
Definition sys_read (fd count : Z) (w : world) : Z * list Z * world :=
  let '(r, e, w) := next_answer w in
  if r <? 0 then (-1, [], record_call (Read fd count (-1)) (set_errno e w))
  else
    let cap := if r =? 0 then count else Z.min r count in
    let bytes := take (Z.to_nat cap) (w_input w) in
    let res := Z.of_nat (length bytes) in
    (res, bytes,
     record_call (Read fd count res)
                 (set_input (drop (Z.to_nat cap) (w_input w)) w)).


(** [mmap]: a positive answer is the address of the mapping, which is
    never null; any other answer is [MAP_FAILED], which is -1, with [errno]
    set. *)
Definition sys_mmap (size fd : Z) (w : world) : Z * world :=
  let '(r, e, w) := next_answer w in
  if r <=? 0 then (-1, record_call (Mmap size fd (-1)) (set_errno e w))
  else (r, record_call (Mmap size fd r) w).

Definition sys_munmap (addr size : Z) (w : world) : world :=
  record_call (Munmap addr size) w.

(** *** The stream record *)

(** [struct file_stream].  [name] is the pointer held in the field and
    [name_text] the string it points to. *)
Record file_stream : Type := File_stream {
  fd : Z;
  name : pointer;
  name_text : list Z;
  is_standard_stream : bool;
  mmap_mem : Z;             (* 0 is the null pointer *)
  mmap_size : Z
}.

Definition set_fd (v : Z) (s : file_stream) : file_stream :=
  File_stream v (name s) (name_text s) (is_standard_stream s) (mmap_mem s)
              (mmap_size s).
Definition set_name (p : pointer) (t : list Z) (s : file_stream)
  : file_stream :=
  File_stream (fd s) p t (is_standard_stream s) (mmap_mem s) (mmap_size s).
Definition set_standard (b : bool) (s : file_stream) : file_stream :=
  File_stream (fd s) (name s) (name_text s) b (mmap_mem s) (mmap_size s).
Definition set_mmap_mem (m : Z) (s : file_stream) : file_stream :=
  File_stream (fd s) (name s) (name_text s) (is_standard_stream s) m
              (mmap_size s).
Definition set_mmap_size (n : Z) (s : file_stream) : file_stream :=
  File_stream (fd s) (name s) (name_text s) (is_standard_stream s)
              (mmap_mem s) n.

(** *** Memory blocks *)

(** A store into a block; [None] when the index is outside the block. *)
Definition store (buf : list Z) (i : nat) (v : Z) : option (list Z) :=
  if (i <? length buf)%nat then Some (<[i := v]> buf) else None.

(** [tmemcpy(&buf[dst], src, length src)]. *)
Fixpoint tmemcpy (buf : list Z) (dst : nat) (src : list Z)
  : option (list Z) :=
  match src with
  | [] => Some buf
  | c :: src' =>
      match store buf dst c with
      | Some buf' => tmemcpy buf' (S dst) src'
      | None => None
      end
  end.

(** The string held in a block: its characters before the first NUL. *)
Fixpoint cstring (buf : list Z) : list Z :=
  match buf with
  | [] => []
  | c :: buf' => if c =? 0 then [] else c :: cstring buf'
  end.

Section WithSizes.

(** The width of [size_t] and [ssize_t], the size of a [tchar], and the
    values of two [errno] constants. *)
Variable size_bits : Z.
Variable tchar_size : Z.
Variable ENOMEM : Z.
Variable EEXIST : Z.

Definition to_size (x : Z) : Z := x mod 2 ^ size_bits.
Definition to_ssize (x : Z) : Z :=
  (x + 2 ^ (size_bits - 1)) mod 2 ^ size_bits - 2 ^ (size_bits - 1).
Definition SIZE_MAX : Z := 2 ^ size_bits - 1.

(** [xmalloc]. *)
Definition xmalloc (size : Z) (w : world) : Z * world :=
  let '(p, w) := sys_malloc size w in
  let '(p, w) :=
    if (p =? 0) && (size =? 0) then sys_malloc 1 w else (p, w) in
  let w := if p =? 0 then msg Out_of_memory w else w in
  (p, w).

(** [quote_path]: the pointer returned and the contents of the block it
    points to; [None] if a store falls outside the block.  The block has
    room for the [tchar]s that fit in the size requested. *)
Definition quote_path (path : list Z) (w : world)
  : option (pointer * list Z * world) :=
  let len := length path in
  let size := to_size ((1 + Z.of_nat len + 1 + 1) * tchar_size) in
  let '(result, w) := xmalloc size w in
  if result =? 0 then Some (Null, [], w)
  else
    let buf := resize (Z.to_nat (size / tchar_size)) 0 (w_junk w) in
    buf ← store buf 0 char_dquote;
    buf ← tmemcpy buf 1 path;
    buf ← store buf (1 + len) char_dquote;
    buf ← store buf (1 + len + 1) 0;
    Some (Heap result, buf, w).

(** [xread]: the loop, with the count still to read and the bytes stored
    so far; [None] when the fuel runs out. *)
Fixpoint xread_loop (fuel : nat) (strm : file_stream)
         (orig_count count : Z) (buf : list Z) (w : world)
  : option (Z * list Z * world) :=
  if count =? 0 then Some (to_ssize (orig_count - count), buf, w)
  else
    match fuel with
    | O => None
    | S fuel' =>
        let '(res, bytes, w) := sys_read (fd strm) (Z.min count INT_MAX) w in
        if res =? 0 then Some (to_ssize (orig_count - count), buf, w)
        else if res <? 0 then
          Some (-1, buf, msg_errno (Error_reading (name_text strm)) w)
        else xread_loop fuel' strm orig_count (count - res) (buf ++ bytes) w
    end.

(** [xread]: the value returned, the bytes stored in [buf], and the
    world. *)
Definition xread (strm : file_stream) (count : Z) (w : world)
  : option (Z * list Z * world) :=
  xread_loop (Z.to_nat count) strm count count [] w.



(** [skip_bytes]: the [do ... while] loop; the result is [ret] at the label
    [out]. *)
Fixpoint skip_loop (fuel : nat) (strm : file_stream) (bufsize count : Z)
         (w : world) : option (Z * world) :=
  match fuel with
  | O => None
  | S fuel' =>
      let n := Z.min count bufsize in
      match xread strm n w with
      | None => None
      | Some (ret, _, w) =>
          if ret <? 0 then Some (ret, w)
          else if negb (to_size ret =? n) then
            Some (-1, msg (Unexpected_eof (name_text strm)) w)
          else
            let count := count - to_size ret in
            if count =? 0 then Some (0, w)
            else skip_loop fuel' strm bufsize count w
      end
  end.

Definition skip_bytes (strm : file_stream) (count : Z) (w : world)
  : option (Z * world) :=
  if count =? 0 then Some (0, w)
  else
    let bufsize := Z.min count 4096 in
    let '(buffer, w) := xmalloc bufsize w in
    if buffer =? 0 then Some (-1, w)
    else
      match skip_loop (Z.to_nat count) strm bufsize count w with
      | None => None
      | Some (ret, w) => Some (ret, sys_free (Heap buffer) w)
      end.

(** [xopen_for_read]; [path] is [None] for a null pointer. *)
Definition xopen_for_read (path : option (list Z)) (strm : file_stream)
           (w : world) : option (Z * file_stream * world) :=
  let strm := set_mmap_mem 0 strm in
  match path with
  | None =>
      let strm := set_standard true strm in
      let strm :=
        set_name Static (Engine.bytes_of_string "standard input") strm in
      let strm := set_fd STDIN_FILENO strm in
      Some (0, strm, w)
  | Some path =>
      let strm := set_standard false strm in
      '(p, buf, w) ← quote_path path w;
      let strm := set_name p (cstring buf) strm in
      match p with
      | Null => Some (-1, strm, w)
      | _ =>
          let '(r, w) := sys_open path Open_read w in
          let strm := set_fd r strm in
          if r <? 0 then
            let w := msg_errno (Cant_open_for_reading (name_text strm)) w in
            Some (-1, strm, sys_free (name strm) w)
          else Some (0, strm, w)
      end
  end.

(** [xopen_for_write]: the code from the label [retry] on; the result is
    the value returned, after the [free] at the label [err] if that is
    reached.  [None] when the fuel runs out. *)
Fixpoint open_retry (fuel : nat) (path : list Z) (overwrite : bool)
         (strm : file_stream) (w : world)
  : option (Z * file_stream * world) :=
  match fuel with
  | O => None
  | S fuel' =>
      let '(r, w) := sys_open path Open_write_excl w in
      let strm := set_fd r strm in
      let err := fun w => Some (-1, strm, sys_free (name strm) w) in
      if r <? 0 then
        if negb (w_errno w =? EEXIST) then
          err (msg_errno (Cant_open_for_writing (name_text strm)) w)
        else
          let '(go_on, w) :=
            if overwrite then (true, w)
            else
              let '(t, w) := sys_isatty STDERR_FILENO w in
              if t =? 0 then
                (false, msg (Already_exists (name_text strm)) w)
              else
                let '(t, w) := sys_isatty STDIN_FILENO w in
                if t =? 0 then
                  (false, msg (Already_exists (name_text strm)) w)
                else
                  let w :=
                    print_line
                      (Line (Overwrite_question (name_text strm)) None) w in
                  let '(c, w) := sys_getchar w in
                  if negb (c =? char_y) then (false, msg Not_overwriting w)
                  else (true, w) in
          if negb go_on then err w
          else
            let '(u, w) := sys_unlink path w in
            if negb (u =? 0) then
              err (msg_errno (Unable_to_delete (name_text strm)) w)
            else open_retry fuel' path overwrite strm w
      else Some (0, strm, w)
  end.

(** [xopen_for_write]; each retry uses up an answer of the script, so one
    more round than the script has answers is enough. *)
Definition xopen_for_write (path : option (list Z)) (overwrite : bool)
           (strm : file_stream) (w : world)
  : option (Z * file_stream * world) :=
  let strm := set_mmap_mem 0 strm in
  match path with
  | None =>
      let strm := set_standard true strm in
      let strm :=
        set_name Static (Engine.bytes_of_string "standard output") strm in
      let strm := set_fd STDOUT_FILENO strm in
      Some (0, strm, w)
  | Some path =>
      let strm := set_standard false strm in
      '(p, buf, w) ← quote_path path w;
      let strm := set_name p (cstring buf) strm in
      match p with
      | Null => Some (-1, strm, sys_free (name strm) w)
      | _ => open_retry (S (length (w_script w))) path overwrite strm w
      end
  end.

(** [map_file_contents]; [size] is a [u64]. *)
Definition map_file_contents (strm : file_stream) (size : Z) (w : world)
  : Z * file_stream * world :=
  if size >? SIZE_MAX then (-1, strm, msg (Too_large (name_text strm)) w)
  else
    let '(m, w) := sys_mmap size (fd strm) w in
    let strm := set_mmap_mem m strm in
    if m =? -1 then
      let strm := set_mmap_mem 0 strm in
      let w :=
        if w_errno w =? ENOMEM then msg (Too_large (name_text strm)) w
        else msg_errno (Unable_to_map (name_text strm)) w in
      (-1, strm, w)
    else (0, set_mmap_size size strm, w).

(** [xclose]. *)
Definition xclose (strm : file_stream) (w : world)
  : Z * file_stream * world :=
  let '(ret, strm, w) :=
    if (0 <=? fd strm) && negb (is_standard_stream strm) then
      let '(c, w) := sys_close (fd strm) w in
      let '(ret, w) :=
        if negb (c =? 0) then
          (-1, msg_errno (Error_closing (name_text strm)) w)
        else (0, w) in
      let w := sys_free (name strm) w in
      if negb (mmap_mem strm =? 0) then
        (ret, set_mmap_mem 0 strm,
         sys_munmap (mmap_mem strm) (mmap_size strm) w)
      else (ret, strm, w)
    else (0, strm, w) in
  (ret, set_name Null [] (set_fd (-1) strm), w).

End WithSizes.

End ProgIO.

(** ** The output of the generator: [print_256_entries]

    The text printed is a list of character codes, appended to what was
    printed before. *)

Module GenOutput.

Definition char_tab : Z := 9.
Definition char_newline : Z := 10.
Definition char_space : Z := 32.
Definition char_comma : Z := 44.
Definition char_0 : Z := 48.
Definition char_x : Z := 120.

(** The digit [d], below 16, as [printf]'s [x] conversion writes it. *)
Definition hex_digit (d : Z) : Z := if d <? 10 then 48 + d else 97 + (d - 10).

(** The hexadecimal digits of [v], most significant first, without leading
    zeros and at least one; eight rounds are enough for an [unsigned int]
    of 32 bits. *)
Fixpoint hex_digits (fuel : nat) (v : Z) : list Z :=
  match fuel with
  | O => []
  | S fuel' =>
      (if v / 16 =? 0 then [] else hex_digits fuel' (v / 16))
      ++ [hex_digit (v mod 16)]
  end.

(** The conversion [%08x]: the digits, padded with zeros on the left to a
    width of eight. *)
Definition format_08x (v : Z) : list Z :=
  let ds := hex_digits 8 v in
  repeat char_0 (8 - length ds) ++ ds.

(** [printf("0x%08x,", v)]. *)
Definition print_entry (v : Z) : list Z :=
  [char_0; char_x] ++ format_08x v ++ [char_comma].

(** [print_256_entries]; [None] when an entry read lies outside
    [entries]. *)
Definition print_256_entries (entries : list Z) (out : list Z)
  : option (list Z) :=
  for_loop 0 (256 / 4)
    (fun i out =>
       out ← out;
       let out := out ++ [char_tab] in
       out ← for_loop 0 4
               (fun j out =>
                  out ← out;
                  v ← entries !! (i * 4 + j)%nat;
                  let out := out ++ print_entry v in
                  Some (if negb (j =? 3)%nat then out ++ [char_space]
                        else out))
               (Some out);
       Some (out ++ [char_newline]))
    (Some out).

End GenOutput.

(** ** Notions used in the statements *)

(** The polynomial when the feedback bit is set. *)
Definition poly_if (c : bool) : Z := if c then 0xEDB88320 else 0.

(** One byte step with a zero input byte. *)
Definition zero_step (remainder : Z) : Z := Gen.crc32_update_byte remainder 0.

(** The number written in decimal by the digit characters [ds], continuing
    from [acc]. *)
Definition decimal_value (acc : Z) (ds : list Z) : Z :=
  fold_left (fun a c => a * 10 + (c - 48)) ds acc.

(** A decimal digit character. *)
Definition is_digit (c : Z) : Prop := 48 <= c <= 57.

(** The calls to [read]. *)
Definition is_read (c : ProgIO.call) : Prop :=
  match c with ProgIO.Read _ _ _ => True | _ => False end.

(** A world and a stream to run the functions in: a first answer that cuts
    the read to two bytes, then no further restriction, with five bytes of
    input left. *)
Definition io_world_example : ProgIO.world :=
  ProgIO.World [(2, 0); (0, 0)] 0 [] [] [1; 2; 3; 4; 5] [] [].

Definition io_stream_example : ProgIO.file_stream :=
  ProgIO.File_stream 3 ProgIO.Static [105; 110] false 0 0.

(** A world in which the file to write exists: [malloc] succeeds, the first
    [open] fails with [errno] 17, both descriptors are terminals, the answer
    read is 'y', [unlink] succeeds and the second [open] gives descriptor
    4. *)
Definition io_world_retry : ProgIO.world :=
  ProgIO.World [(5, 0); (-1, 17); (1, 0); (1, 0); (121, 0); (0, 0); (4, 0)]
               0 [] [] [] [] [].

(** The calls to [free]. *)
Definition is_free (c : ProgIO.call) : Prop :=
  match c with ProgIO.Free _ => True | _ => False end.

(** Every [unlink] among [calls] is of [path] and, unless [overwrite] is
    set, comes directly after a [getchar] that returned 'y'. *)
Definition unlink_guarded (path : list Z) (overwrite : bool)
           (calls : list ProgIO.call) : Prop :=
  forall i p u, calls !! i = Some (ProgIO.Unlink p u) ->
    p = path /\
    (overwrite = false ->
     exists j, i = S j /\ calls !! j = Some (ProgIO.Getchar ProgIO.char_y)).

(** The value of a hexadecimal digit character, and of a string of them. *)
Definition digit_value (c : Z) : Z := if c <? 58 then c - 48 else c - 87.

Definition hex_value (ds : list Z) : Z :=
  fold_left (fun a c => a * 16 + digit_value c) ds 0.

(** A character among [0-9a-f]. *)
Definition is_hex_char (c : Z) : Prop := 48 <= c <= 57 \/ 97 <= c <= 102.

(** Where [print_256_entries] puts entry [k]: 49 characters a line, a tab,
    then 12 characters an entry. *)
Definition entry_pos (k : nat) : nat := (49 * (k / 4) + 1 + 12 * (k mod 4))%nat.

(** The line of the entries [4 i] to [4 i + 3]. *)
Definition line_of (entries : list Z) (i : nat) : list Z :=
  [GenOutput.char_tab]
  ++ GenOutput.print_entry (entries !!! (i * 4 + 0)%nat)
  ++ [GenOutput.char_space]
  ++ GenOutput.print_entry (entries !!! (i * 4 + 1)%nat)
  ++ [GenOutput.char_space]
  ++ GenOutput.print_entry (entries !!! (i * 4 + 2)%nat)
  ++ [GenOutput.char_space]
  ++ GenOutput.print_entry (entries !!! (i * 4 + 3)%nat)
  ++ [GenOutput.char_newline].

(** * Properties *)

(** ** Bitwise facts on [Z] *)

Section BitFacts.

Lemma land_lxor_distr_r (a b m : Z) :
  Z.land (Z.lxor a b) m = Z.lxor (Z.land a m) (Z.land b m).
Proof.
  apply Z.bits_inj'; intros n _.
  rewrite Z.land_spec, !Z.lxor_spec, !Z.land_spec.
  btauto.
Qed.

Lemma u8_land (x : Z) : u8 x = Z.land x (Z.ones 8).
Proof. unfold u8. now rewrite Z.land_ones by lia. Qed.

Lemma u8_lxor (a b : Z) : u8 (Z.lxor a b) = Z.lxor (u8 a) (u8 b).
Proof. rewrite !u8_land. apply land_lxor_distr_r. Qed.

Lemma u8_is_u8 (x : Z) : is_u8 (u8 x).
Proof. apply Z.mod_pos_bound. lia. Qed.

Lemma lxor_bound (n a b : Z) :
  0 <= n -> 0 <= a < 2 ^ n -> 0 <= b < 2 ^ n -> 0 <= Z.lxor a b < 2 ^ n.
Proof.
  intros Hn Ha Hb.
  assert (E : Z.lxor a b = Z.lxor a b mod 2 ^ n).
  { rewrite <- (Z.land_ones _ n Hn), land_lxor_distr_r, !Z.land_ones by exact Hn.
    now rewrite (Z.mod_small a), (Z.mod_small b). }
  rewrite E. apply Z.mod_pos_bound. lia.
Qed.

Lemma land_1_bit0 (x : Z) : Z.land x 1 = Z.b2z (Z.testbit x 0).
Proof.
  change 1 with (Z.ones 1) at 1.
  rewrite Z.land_ones by lia. symmetry. apply Z.bit0_mod.
Qed.

(** A value is its low byte together with the rest. *)
Lemma split_low_byte (r : Z) :
  r = Z.lxor (Z.shiftl (Z.shiftr r 8) 8) (Z.land r 0xFF).
Proof.
  apply Z.bits_inj'; intros n Hn.
  rewrite Z.lxor_spec, Z.land_spec.
  change 0xFF with (Z.ones 8).
  destruct (Z.lt_ge_cases n 8) as [Hlt | Hge].
  - rewrite Z.shiftl_spec_low, Z.ones_spec_low by lia.
    now rewrite andb_true_r.
  - rewrite Z.shiftl_spec, Z.shiftr_spec, Z.ones_spec_high by lia.
    rewrite andb_false_r, xorb_false_r. f_equal. lia.
Qed.

End BitFacts.

(** ** The bit and byte steps *)

Section Steps.
Import Gen.

Lemma poly_if_xorb (c d : bool) :
  poly_if (xorb c d) = Z.lxor (poly_if c) (poly_if d).
Proof. now destruct c, d. Qed.

Lemma update_bit_testbit (r b : Z) :
  crc32_update_bit r b =
  Z.lxor (Z.shiftr r 1) (poly_if (xorb (Z.testbit r 0) (Z.testbit b 0))).
Proof.
  unfold crc32_update_bit. f_equal.
  rewrite land_1_bit0, Z.lxor_spec.
  now destruct (xorb _ _).
Qed.

(** The bit step is linear over XOR in both arguments together. *)
Lemma update_bit_lxor (a b c d : Z) :
  crc32_update_bit (Z.lxor a b) (Z.lxor c d) =
  Z.lxor (crc32_update_bit a c) (crc32_update_bit b d).
Proof.
  rewrite !update_bit_testbit, Z.shiftr_lxor, !Z.lxor_spec.
  replace (xorb (xorb (Z.testbit a 0) (Z.testbit b 0))
                (xorb (Z.testbit c 0) (Z.testbit d 0)))
    with (xorb (xorb (Z.testbit a 0) (Z.testbit c 0))
               (xorb (Z.testbit b 0) (Z.testbit d 0))) by btauto.
  rewrite poly_if_xorb.
  rewrite !Z.lxor_assoc. f_equal.
  rewrite <- !Z.lxor_assoc. f_equal. apply Z.lxor_comm.
Qed.

Lemma update_byte_loop_lxor (n : nat) (a b c d : Z) :
  update_byte_loop n (Z.lxor a b) (Z.lxor c d) =
  Z.lxor (update_byte_loop n a c) (update_byte_loop n b d).
Proof.
  revert a b c d. induction n as [| n IH]; intros a b c d; simpl.
  - reflexivity.
  - rewrite land_lxor_distr_r, update_bit_lxor, Z.shiftr_lxor, u8_lxor.
    apply IH.
Qed.

(** The byte step is linear over XOR in both arguments together. *)
Lemma update_byte_lxor (a b c d : Z) :
  crc32_update_byte (Z.lxor a b) (Z.lxor c d) =
  Z.lxor (crc32_update_byte a c) (crc32_update_byte b d).
Proof.
  unfold crc32_update_byte. rewrite u8_lxor. apply update_byte_loop_lxor.
Qed.

Lemma update_byte_0_0 : crc32_update_byte 0 0 = 0.
Proof. reflexivity. Qed.

Example update_byte_0_1 : crc32_update_byte 0 1 = 0x77073096.
Proof. reflexivity. Qed.

Example update_byte_0_255 : crc32_update_byte 0 255 = 0x2D02EF8D.
Proof. reflexivity. Qed.

Lemma update_bit_u32 (r b : Z) : is_u32 r -> is_u32 (crc32_update_bit r b).
Proof.
  unfold is_u32. intros Hr. rewrite update_bit_testbit.
  apply lxor_bound; [lia | |].
  - rewrite Z.shiftr_div_pow2 by lia. change (2 ^ 1) with 2.
    split; [apply Z.div_pos; lia |].
    apply Z.div_lt_upper_bound; lia.
  - unfold poly_if. destruct (xorb _ _); lia.
Qed.

Lemma update_byte_loop_u32 (n : nat) (r b : Z) :
  is_u32 r -> is_u32 (update_byte_loop n r b).
Proof.
  revert r b. induction n as [| n IH]; intros r b Hr; simpl.
  - exact Hr.
  - apply IH, update_bit_u32, Hr.
Qed.

Lemma update_byte_u32 (r b : Z) : is_u32 r -> is_u32 (crc32_update_byte r b).
Proof. apply update_byte_loop_u32. Qed.

Lemma update_bit_shifted (x : Z) (n : nat) :
  crc32_update_bit (Z.shiftl x (Z.of_nat (S n))) 0 = Z.shiftl x (Z.of_nat n).
Proof.
  rewrite update_bit_testbit.
  rewrite Z.shiftl_spec_low by lia.
  rewrite Z.shiftr_shiftl_l by lia.
  cbn [xorb Z.testbit poly_if]. rewrite Z.lxor_0_r. f_equal. lia.
Qed.

Lemma update_byte_loop_shifted (n : nat) (x : Z) :
  update_byte_loop n (Z.shiftl x (Z.of_nat n)) 0 = x.
Proof.
  induction n as [| n IH]; cbn [update_byte_loop].
  - apply Z.shiftl_0_r.
  - change (Z.land 0 1) with 0. change (u8 (Z.shiftr 0 1)) with 0.
    rewrite update_bit_shifted. exact IH.
Qed.

(** A remainder whose low byte is clear is shifted out unchanged. *)
Lemma update_byte_shift8 (x : Z) : crc32_update_byte (Z.shiftl x 8) 0 = x.
Proof.
  unfold crc32_update_byte. change (u8 0) with 0.
  exact (update_byte_loop_shifted 8 x).
Qed.

Lemma update_byte_low_check :
  forallb (fun n => crc32_update_byte (Z.of_nat n) 0
                    =? crc32_update_byte 0 (Z.of_nat n))
          (seq 0 256) = true.
Proof. vm_compute. reflexivity. Qed.

(** A byte held in the remainder acts like the same byte fed as input. *)
Lemma update_byte_low (lo : Z) :
  is_u8 lo -> crc32_update_byte lo 0 = crc32_update_byte 0 lo.
Proof.
  intros [H0 H1].
  pose proof (proj1 (forallb_forall _ _) update_byte_low_check (Z.to_nat lo))
    as H.
  cbv beta in H. rewrite Z2Nat.id in H by exact H0.
  apply Z.eqb_eq, H, in_seq.
  change (2 ^ 8) with 256 in H1. lia.
Qed.

(** C5: [update_byte(0, 0) == 0], and with a zero input byte the byte step
    is linear over XOR in the remainder: for all 32-bit [a] and [b],
    [update_byte(a XOR b, 0) == update_byte(a, 0) XOR update_byte(b, 0)]. *)
Theorem update_byte_zero_linear :
  crc32_update_byte 0 0 = 0 /\
  forall a b : Z, is_u32 a -> is_u32 b ->
    crc32_update_byte (Z.lxor a b) 0 =
    Z.lxor (crc32_update_byte a 0) (crc32_update_byte b 0).
Proof.
  split; [exact update_byte_0_0 |].
  intros a b _ _.
  exact (update_byte_lxor a b 0 0).
Qed.

Lemma update_byte_zero_linear_witness :
  is_u32 0xDEADBEEF /\ is_u32 0x12345678 /\
  crc32_update_byte (Z.lxor 0xDEADBEEF 0x12345678) 0 =
  Z.lxor (crc32_update_byte 0xDEADBEEF 0) (crc32_update_byte 0x12345678 0).
Proof.
  assert (Ha : is_u32 0xDEADBEEF) by (unfold is_u32; lia).
  assert (Hb : is_u32 0x12345678) by (unfold is_u32; lia).
  split; [exact Ha |]. split; [exact Hb |].
  exact (proj2 update_byte_zero_linear 0xDEADBEEF 0x12345678 Ha Hb).
Defined.

(** C8: the byte step separates remainder and input byte: for every 32-bit
    remainder [r] and every byte [b],
    [update_byte(r, b) == update_byte(r, 0) XOR update_byte(0, b)]. *)
Theorem update_byte_separates (r b : Z) :
  is_u32 r -> is_u8 b ->
  crc32_update_byte r b =
  Z.lxor (crc32_update_byte r 0) (crc32_update_byte 0 b).
Proof.
  intros _ _.
  rewrite <- update_byte_lxor.
  now rewrite Z.lxor_0_r, Z.lxor_0_l.
Qed.

Lemma update_byte_separates_witness :
  crc32_update_byte 0xDEADBEEF 0x41 =
  Z.lxor (crc32_update_byte 0xDEADBEEF 0) (crc32_update_byte 0 0x41).
Proof.
  apply update_byte_separates; [unfold is_u32 | unfold is_u8]; lia.
Defined.

End Steps.

(** ** Folding a XOR-linear byte step over data

    The algebra behind the slice tables and the rolling table, for any byte
    step with the three properties the CRC-32 step is shown to have below. *)

Section StepAlgebra.

Variable step : Z -> Z -> Z.

Hypothesis step_lxor : forall a b c d,
  step (Z.lxor a b) (Z.lxor c d) = Z.lxor (step a c) (step b d).
Hypothesis step_shift8 : forall x, step (Z.shiftl x 8) 0 = x.
Hypothesis step_low : forall lo, is_u8 lo -> step lo 0 = step 0 lo.

Local Abbreviation fold := (fold_left step).
Local Abbreviation zeros n := (replicate n 0).

Lemma fold_cons (b : Z) (l : list Z) (r : Z) :
  fold (b :: l) r = fold l (step r b).
Proof. reflexivity. Qed.

Lemma fold_snoc (l : list Z) (b r : Z) :
  fold (l ++ [b]) r = step (fold l r) b.
Proof. rewrite fold_left_app. reflexivity. Qed.

Lemma step_0_0 : step 0 0 = 0.
Proof.
  pose proof (step_lxor 0 0 0 0) as H.
  change (Z.lxor 0 0) with 0 in H.
  now rewrite Z.lxor_nilpotent in H.
Qed.

Lemma fold_zeros_0 (n : nat) : fold (zeros n) 0 = 0.
Proof.
  induction n as [| n IH]; [reflexivity |].
  rewrite replicate_S, fold_cons, step_0_0. exact IH.
Qed.

(** Superposition: the remainder can be split, one part running over zero
    bytes and the other over the data. *)
Lemma fold_superpose (l : list Z) (r1 r2 : Z) :
  fold l (Z.lxor r1 r2) = Z.lxor (fold (zeros (length l)) r1) (fold l r2).
Proof.
  revert r1 r2. induction l as [| b l IH]; intros r1 r2.
  - reflexivity.
  - cbn [length]. rewrite replicate_S, !fold_cons.
    rewrite <- (Z.lxor_0_l b) at 1.
    rewrite step_lxor. apply IH.
Qed.

(** The byte step, one table lookup at a time. *)
Lemma step_via_table (r b : Z) :
  step r b = Z.lxor (Z.shiftr r 8) (step 0 (Z.lxor (Z.land r 0xFF) b)).
Proof.
  assert (Hlo : is_u8 (Z.land r 0xFF)).
  { change 0xFF with (Z.ones 8). rewrite Z.land_ones by lia. apply u8_is_u8. }
  rewrite (split_low_byte r) at 1.
  rewrite <- (Z.lxor_0_l b) at 1.
  rewrite step_lxor, step_shift8. f_equal.
  rewrite <- (Z.lxor_0_r (Z.land r 0xFF)) at 1.
  rewrite <- (Z.lxor_0_l b) at 1.
  rewrite step_lxor, (step_low _ Hlo), <- step_lxor.
  now rewrite Z.lxor_0_l.
Qed.

Lemma fold_lxor_acc (l : list Z) (a b : Z) :
  fold_left Z.lxor l (Z.lxor a b) = Z.lxor b (fold_left Z.lxor l a).
Proof.
  revert a. induction l as [| x l IH]; intros a; cbn [fold_left].
  - apply Z.lxor_comm.
  - rewrite <- IH. f_equal.
    rewrite !Z.lxor_assoc. f_equal. apply Z.lxor_comm.
Qed.

Lemma byte_of_shiftr8 (r : Z) (k : nat) :
  Engine.byte_of (Z.shiftr r 8) k = Engine.byte_of r (S k).
Proof.
  unfold Engine.byte_of. rewrite Z.shiftr_shiftr by lia.
  do 2 f_equal. lia.
Qed.

(** Running over a chunk of [n] bytes: byte [k] of the chunk, combined with
    byte [k] of the remainder, contributes the step from zero followed by
    [n-1-k] zero bytes; what is left of the remainder is shifted by [n]
    bytes. *)
Lemma fold_chunk (l : list Z) (r : Z) :
  fold l r =
  fold_left Z.lxor
    (imap (fun k d =>
             fold (zeros (length l - 1 - k))
                  (step 0 (Z.lxor (Engine.byte_of r k) d))) l)
    (Z.shiftr r (8 * Z.of_nat (length l))).
Proof.
  revert r. induction l as [| d l IH]; intros r.
  - cbn [length imap fold_left]. now rewrite Z.shiftr_0_r.
  - rewrite fold_cons, step_via_table, Z.lxor_comm, fold_superpose, IH.
    rewrite imap_cons. cbn [fold_left].
    rewrite fold_lxor_acc. f_equal.
    + unfold Engine.byte_of. cbn [length].
      rewrite Z.shiftr_0_r. do 2 f_equal. lia.
    + f_equal.
      * apply imap_ext. intros i x _. unfold compose.
        rewrite byte_of_shiftr8. cbn [length]. do 2 f_equal. lia.
      * rewrite Z.shiftr_shiftr by lia. f_equal. cbn [length]. lia.
Qed.

End StepAlgebra.

Arguments Gen.crc32_update_byte : simpl never.
Arguments zero_step : simpl never.
Arguments for_loop : simpl never.

(** ** Loops that fill an array *)

Section Loops.
Local Open Scope nat_scope.

Lemma fold_seq_ind {S : Type} (P : nat -> S -> Prop) (body : nat -> S -> S)
      (n : nat) :
  forall (lo : nat) (s : S),
    P lo s ->
    (forall i s', lo <= i < lo + n -> P i s' -> P (Datatypes.S i) (body i s')) ->
    P (lo + n) (fold_left (fun acc i => body i acc) (seq lo n) s).
Proof.
  induction n as [| n IH]; intros lo s H0 Hstep; simpl.
  - now rewrite Nat.add_0_r.
  - replace (lo + Datatypes.S n) with (Datatypes.S lo + n) by lia.
    apply IH.
    + apply Hstep; [lia | exact H0].
    + intros i s' Hi. apply Hstep. lia.
Qed.

(** Invariant rule for a counting loop. *)
Lemma for_loop_ind {S : Type} (P : nat -> S -> Prop) (lo hi : nat)
      (body : nat -> S -> S) (s : S) :
  lo <= hi ->
  P lo s ->
  (forall i s', lo <= i < hi -> P i s' -> P (Datatypes.S i) (body i s')) ->
  P hi (for_loop lo hi body s).
Proof.
  intros Hle H0 Hstep. unfold for_loop.
  replace hi with (lo + (hi - lo)) at 1 by lia.
  apply fold_seq_ind; [exact H0 |].
  intros i s' Hi. apply Hstep. lia.
Qed.

Lemma for_loop_const {S : Type} (f : S -> S) (lo hi : nat) (s : S) :
  for_loop lo hi (fun _ => f) s = Nat.iter (hi - lo) f s.
Proof.
  unfold for_loop. generalize (hi - lo). intros n.
  revert lo s. induction n as [| n IH]; intros lo s.
  - reflexivity.
  - rewrite Nat.iter_succ_r. simpl. apply IH.
Qed.

(** A loop that stores [f i] at every index [i] of [lo, hi). *)
Lemma fill_loop_spec (f : nat -> Z) (lo hi : nat) (t0 : list Z) :
  lo <= hi -> hi <= length t0 ->
  length (for_loop lo hi (fun i t => <[i := f i]> t) t0) = length t0 /\
  forall j, for_loop lo hi (fun i t => <[i := f i]> t) t0 !! j =
            if decide (lo <= j < hi) then Some (f j) else t0 !! j.
Proof.
  intros Hle Hlen.
  pose (P := fun (i : nat) (t : list Z) =>
               length t = length t0 /\
               forall j, t !! j =
                 if decide (lo <= j < i) then Some (f j) else t0 !! j).
  apply (for_loop_ind P); subst P; cbn beta; [exact Hle | |].
  - split; [reflexivity |]. intros j. case_decide; [lia | reflexivity].
  - intros i t Hi [Hl Hj]. split; [now rewrite length_insert |].
    intros j. destruct (decide (i = j)) as [-> | Hne].
    + rewrite list_lookup_insert_eq by lia. case_decide; [reflexivity | lia].
    + rewrite list_lookup_insert_ne by exact Hne. rewrite Hj.
      repeat case_decide; try reflexivity; lia.
Qed.

(** A loop that stores at [i] a function of the entry [d] places below. *)
Lemma chain_loop_spec (g : Z -> Z) (d lo hi : nat) (t0 : list Z) :
  0 < d -> d <= lo -> lo <= hi -> hi <= length t0 ->
  let t := for_loop lo hi (fun i t => <[i := g (t !!! (i - d))]> t) t0 in
  length t = length t0 /\
  (forall j, j < lo -> t !! j = t0 !! j) /\
  (forall j, lo <= j < hi -> t !! j = Some (g (t !!! (j - d)))).
Proof.
  intros Hd Hdlo Hle Hlen.
  pose (P := fun (i : nat) (t : list Z) =>
               length t = length t0 /\
               (forall j, j < lo -> t !! j = t0 !! j) /\
               (forall j, lo <= j < i -> t !! j = Some (g (t !!! (j - d))))).
  apply (for_loop_ind P); subst P; cbn beta; [exact Hle | |].
  - split; [reflexivity |]. split; [reflexivity |]. intros j Hj. lia.
  - intros i t Hi (Hl & Hlow & Hrec).
    split; [now rewrite length_insert |]. split.
    + intros j Hj. rewrite list_lookup_insert_ne by lia. now apply Hlow.
    + intros j Hj.
      rewrite (list_lookup_total_insert_ne t i (j - d)) by lia.
      destruct (decide (i = j)) as [-> | Hne].
      * now rewrite list_lookup_insert_eq by lia.
      * rewrite list_lookup_insert_ne by exact Hne. apply Hrec. lia.
Qed.

End Loops.

(** ** The generated tables *)

Section Tables.
Import Gen Engine.
Local Open Scope nat_scope.

Lemma iter_zero_step_0 (k : nat) : Nat.iter k zero_step 0%Z = 0%Z.
Proof.
  induction k as [| k IH]; [reflexivity |].
  rewrite Nat.iter_succ, IH. exact update_byte_0_0.
Qed.

Lemma bytewise_cons (r b : Z) (l : list Z) :
  crc32_bytewise r (b :: l) = crc32_bytewise (crc32_update_byte r b) l.
Proof. exact (fold_cons crc32_update_byte b l r). Qed.

Lemma bytewise_snoc (r b : Z) (l : list Z) :
  crc32_bytewise r (l ++ [b]) = crc32_update_byte (crc32_bytewise r l) b.
Proof. exact (fold_snoc crc32_update_byte l b r). Qed.

Lemma bytewise_app (r : Z) (l1 l2 : list Z) :
  crc32_bytewise r (l1 ++ l2) = crc32_bytewise (crc32_bytewise r l1) l2.
Proof. apply fold_left_app. Qed.

Lemma bytewise_zeros (k : nat) (r : Z) :
  crc32_bytewise r (replicate k 0%Z) = Nat.iter k zero_step r.
Proof.
  revert r. induction k as [| k IH]; intros r; [reflexivity |].
  rewrite Nat.iter_succ_r, <- IH.
  change (replicate (Datatypes.S k) 0%Z) with (0%Z :: replicate k 0%Z).
  apply bytewise_cons.
Qed.

Lemma bytewise_byte_zeros (k : nat) (b : Z) :
  crc32_bytewise 0 (b :: replicate k 0%Z) =
  Nat.iter k zero_step (crc32_update_byte 0 b).
Proof. apply (bytewise_zeros k (crc32_update_byte 0 b)). Qed.

Lemma main_table_eq :
  crc32_table main_tables = fill_slices (fill_base (replicate 0x800 0%Z)).
Proof. reflexivity. Qed.

Lemma main_rolling_eq :
  crc32_rolling main_tables = fill_rolling (replicate 0x100 0%Z).
Proof. reflexivity. Qed.

Lemma fill_base_spec (t0 : list Z) :
  0x100 <= length t0 ->
  length (fill_base t0) = length t0 /\
  forall j, fill_base t0 !! j =
            if decide (0 <= j < 0x100)
            then Some (crc32_update_byte 0 (Z.of_nat j)) else t0 !! j.
Proof.
  intros Hlen. unfold fill_base.
  apply (fill_loop_spec (fun i => crc32_update_byte 0 (Z.of_nat i)));
    [lia | exact Hlen].
Qed.

Lemma fill_slices_spec (t0 : list Z) :
  0x800 <= length t0 ->
  length (fill_slices t0) = length t0 /\
  (forall j, j < 0x100 -> fill_slices t0 !! j = t0 !! j) /\
  (forall j, 0x100 <= j < 0x800 ->
     fill_slices t0 !! j = Some (zero_step (fill_slices t0 !!! (j - 0x100)))).
Proof.
  intros Hlen. unfold fill_slices, zero_step.
  apply (chain_loop_spec (fun r => crc32_update_byte r 0) 0x100 0x100 0x800 t0);
    [lia .. | exact Hlen].
Qed.

Lemma fill_rolling_spec (t0 : list Z) :
  0x100 <= length t0 ->
  length (fill_rolling t0) = length t0 /\
  forall j, fill_rolling t0 !! j =
            if decide (0 <= j < 0x100) then Some (rolling_entry j) else t0 !! j.
Proof.
  intros Hlen. unfold fill_rolling.
  apply (fill_loop_spec rolling_entry); [lia | exact Hlen].
Qed.

Lemma rolling_entry_iter (i : nat) :
  rolling_entry i = Nat.iter 16 zero_step (crc32_update_byte 0 (Z.of_nat i)).
Proof.
  unfold rolling_entry, zero_step.
  exact (for_loop_const (fun r => crc32_update_byte r 0) 0 16 _).
Qed.

Lemma table_length : length (crc32_table main_tables) = 0x800.
Proof.
  rewrite main_table_eq.
  assert (Hb : 0x100 <= length (replicate 0x800 0%Z))
    by (rewrite length_replicate; lia).
  destruct (fill_base_spec _ Hb) as [Hl _].
  rewrite length_replicate in Hl.
  destruct (fill_slices_spec (fill_base (replicate 0x800 0%Z))) as [Hl' _];
    [lia |].
  etransitivity; [exact Hl' | exact Hl].
Qed.

(** The first 256 entries of [crc32_table]. *)
Lemma table_base (i : nat) :
  i < 0x100 ->
  crc32_table main_tables !! i = Some (crc32_update_byte 0 (Z.of_nat i)).
Proof.
  intros Hi. rewrite main_table_eq.
  assert (Hb : 0x100 <= length (replicate 0x800 0%Z))
    by (rewrite length_replicate; lia).
  destruct (fill_base_spec _ Hb) as [Hl Hbase].
  rewrite length_replicate in Hl.
  destruct (fill_slices_spec (fill_base (replicate 0x800 0%Z)))
    as (_ & Hlow & _); [lia |].
  rewrite Hlow by exact Hi. rewrite Hbase.
  case_decide; [reflexivity | lia].
Qed.

(** Every later entry is one zero byte after the entry 256 places below. *)
Lemma table_chain (j : nat) :
  0x100 <= j < 0x800 ->
  crc32_table main_tables !! j =
  Some (zero_step (crc32_table main_tables !!! (j - 0x100))).
Proof.
  intros Hj. rewrite main_table_eq.
  assert (Hb : 0x100 <= length (replicate 0x800 0%Z))
    by (rewrite length_replicate; lia).
  destruct (fill_base_spec _ Hb) as [Hl _].
  rewrite length_replicate in Hl.
  destruct (fill_slices_spec (fill_base (replicate 0x800 0%Z)))
    as (_ & _ & Hrec); [lia |].
  now apply Hrec.
Qed.

(** Entry [i] of group [k]: byte [i], then [k] zero bytes. *)
Lemma table_group (k i : nat) :
  k < 8 -> i < 0x100 ->
  crc32_table main_tables !! (k * 0x100 + i) =
  Some (Nat.iter k zero_step (crc32_update_byte 0 (Z.of_nat i))).
Proof.
  intros Hk Hi. induction k as [| k IH].
  - now apply table_base.
  - rewrite table_chain by lia.
    replace (Datatypes.S k * 0x100 + i - 0x100) with (k * 0x100 + i) by lia.
    erewrite list_lookup_total_correct by (apply IH; lia).
    now rewrite Nat.iter_succ.
Qed.

Lemma rolling_lookup (i : nat) :
  i < 0x100 ->
  crc32_rolling main_tables !! i =
  Some (Nat.iter 16 zero_step (crc32_update_byte 0 (Z.of_nat i))).
Proof.
  intros Hi. rewrite main_rolling_eq.
  destruct (fill_rolling_spec (replicate 0x100 0%Z)) as [_ Hr];
    [rewrite length_replicate; lia |].
  rewrite Hr. case_decide; [| lia].
  now rewrite rolling_entry_iter.
Qed.

(** C6: for every byte value [i] in [0,256), [crc32_table[i]] equals
    [update_byte(0, i)]; in particular [crc32_table[0] == 0]. *)
Theorem base_table_entries :
  (forall i : nat, i < 0x100 ->
     crc32_table main_tables !! i = Some (crc32_update_byte 0 (Z.of_nat i))) /\
  crc32_table main_tables !! 0 = Some 0%Z.
Proof.
  split; [exact table_base |].
  rewrite table_base by lia. exact (f_equal Some update_byte_0_0).
Qed.

Lemma base_table_entries_witness :
  crc32_table main_tables !! 65 = Some (crc32_update_byte 0 (Z.of_nat 65)).
Proof. apply (proj1 base_table_entries 65). lia. Defined.

(** C4: for every group [k] with [1 <= k < 8] and every byte value [i] in
    [0,256), [crc32_table[k*0x100 + i]] is the CRC-32 of byte [i] followed
    by [k] zero bytes, that is, [update_byte(_, 0)] applied exactly [k] times
    to [crc32_table[i]]. *)
Theorem slice_group_entries (k i : nat) :
  1 <= k < 8 -> i < 0x100 ->
  crc32_table main_tables !! (k * 0x100 + i) =
    Some (crc32_bytewise 0 (Z.of_nat i :: replicate k 0%Z)) /\
  crc32_table main_tables !! (k * 0x100 + i) =
    Some (Nat.iter k zero_step (crc32_table main_tables !!! i)).
Proof.
  intros Hk Hi. split.
  - rewrite bytewise_byte_zeros. apply table_group; lia.
  - rewrite table_group by lia.
    apply (f_equal (fun x => Some (Nat.iter k zero_step x))).
    symmetry. apply list_lookup_total_correct, table_base, Hi.
Qed.

Lemma slice_group_entries_witness :
  crc32_table main_tables !! (3 * 0x100 + 65) =
    Some (crc32_bytewise 0 (Z.of_nat 65 :: replicate 3 0%Z)) /\
  crc32_table main_tables !! (3 * 0x100 + 65) =
    Some (Nat.iter 3 zero_step (crc32_table main_tables !!! 65)).
Proof. apply (slice_group_entries 3 65); lia. Defined.

(** C9: entry 0 of every generated table is zero:
    [crc32_table[k*0x100] == 0] for every group [k] in [0,8), and
    [crc32_rolling[0] == 0]. *)
Theorem zero_entries :
  (forall k : nat, k < 8 -> crc32_table main_tables !! (k * 0x100) = Some 0%Z) /\
  crc32_rolling main_tables !! 0 = Some 0%Z.
Proof.
  split.
  - intros k Hk.
    replace (k * 0x100) with (k * 0x100 + 0) by lia.
    rewrite table_group by lia.
    change (Z.of_nat 0) with 0%Z.
    now rewrite update_byte_0_0, iter_zero_step_0.
  - rewrite rolling_lookup by lia.
    change (Z.of_nat 0) with 0%Z.
    now rewrite update_byte_0_0, iter_zero_step_0.
Qed.

Lemma zero_entries_witness :
  crc32_table main_tables !! (7 * 0x100) = Some 0%Z.
Proof. apply (proj1 zero_entries 7). lia. Defined.

(** C3, as stated, fails at [i = 1]: [crc32_rolling[1]] is not the CRC-32 of
    byte 1 followed by [W-1 = 15] zero bytes. *)
Lemma rolling_entry_1_not_15_zero_bytes :
  crc32_rolling main_tables !! 1 <>
    Some (crc32_bytewise 0 (1%Z :: replicate (W - 1) 0%Z)) /\
  crc32_rolling main_tables !! 1 <>
    Some (Nat.iter 15 zero_step (crc32_update_byte 0 1)).
Proof. split; vm_compute; discriminate. Qed.

(** C3, amended: for every byte value [i] in [0,256), [crc32_rolling[i]] is
    the CRC-32 of byte [i] followed by exactly [W = 16] zero bytes: that is,
    [update_byte(0, i)] followed by exactly 16 further applications of
    [update_byte(_, 0)]. *)
Theorem rolling_table_entries (i : nat) :
  i < 0x100 ->
  crc32_rolling main_tables !! i =
    Some (crc32_bytewise 0 (Z.of_nat i :: replicate W 0%Z)) /\
  crc32_rolling main_tables !! i =
    Some (Nat.iter 16 zero_step (crc32_update_byte 0 (Z.of_nat i))).
Proof.
  intros Hi. rewrite bytewise_byte_zeros.
  split; apply rolling_lookup; exact Hi.
Qed.

Lemma rolling_table_entries_witness :
  crc32_rolling main_tables !! 1 =
    Some (crc32_bytewise 0 (Z.of_nat 1 :: replicate W 0%Z)) /\
  crc32_rolling main_tables !! 1 =
    Some (Nat.iter 16 zero_step (crc32_update_byte 0 (Z.of_nat 1))).
Proof. apply (rolling_table_entries 1). lia. Defined.

End Tables.

(** ** The engine on the generated tables *)

Section EngineFacts.
Import Gen Engine.

Lemma bytewise_superpose (l : list Z) (r1 r2 : Z) :
  crc32_bytewise (Z.lxor r1 r2) l =
  Z.lxor (crc32_bytewise r1 (replicate (length l) 0))
         (crc32_bytewise r2 l).
Proof. exact (fold_superpose crc32_update_byte update_byte_lxor l r1 r2). Qed.

Lemma bytewise_chunk (l : list Z) (r : Z) :
  crc32_bytewise r l =
  fold_left Z.lxor
    (imap (fun k d =>
             crc32_bytewise
               (crc32_update_byte 0 (Z.lxor (byte_of r k) d))
               (replicate (length l - 1 - k) 0)) l)
    (Z.shiftr r (8 * Z.of_nat (length l))).
Proof.
  exact (fold_chunk crc32_update_byte update_byte_lxor update_byte_shift8
                    update_byte_low l r).
Qed.

(** The standard check value of CRC-32, with the usual complemented initial
    and final remainders layered on top. *)
Example bytewise_check_value :
  Z.lxor (crc32_bytewise 0xFFFFFFFF (bytes_of_string "123456789")) 0xFFFFFFFF
  = 0xCBF43926.
Proof. vm_compute. reflexivity. Qed.

Lemma bytewise_u32 (l : list Z) (r : Z) :
  is_u32 r -> is_u32 (crc32_bytewise r l).
Proof.
  revert r. induction l as [| b l IH]; intros r Hr.
  - exact Hr.
  - rewrite bytewise_cons. apply IH, update_byte_u32, Hr.
Qed.

Lemma byte_of_is_u8 (r : Z) (k : nat) : is_u8 (byte_of r k).
Proof.
  unfold byte_of. change 0xFF with (Z.ones 8).
  rewrite Z.land_ones by lia. apply u8_is_u8.
Qed.

(** A lookup in table group [k] at a byte index. *)
Lemma group_entry (k : nat) (x : Z) :
  (k < 8)%nat -> is_u8 x ->
  group main_tables k x =
  crc32_bytewise (crc32_update_byte 0 x) (replicate k 0).
Proof.
  intros Hk [H0 H1]. unfold group.
  apply list_lookup_total_correct.
  rewrite table_group; [| exact Hk | change (2 ^ 8) with 256 in H1; lia].
  rewrite Z2Nat.id by exact H0.
  now rewrite bytewise_zeros.
Qed.

(** One slice step over a chunk of [N] bytes is [N] byte steps. *)
Lemma slice_step_bytewise (N : nat) (r : Z) (chunk : list Z) :
  length chunk = N -> (N <= 8)%nat -> Forall is_u8 chunk ->
  slice_step main_tables N r chunk = crc32_bytewise r chunk.
Proof.
  intros Hlen HN Hbytes. subst N.
  rewrite bytewise_chunk. unfold slice_step.
  f_equal. apply imap_ext. intros k d Hkd.
  pose proof (lookup_lt_Some _ _ _ Hkd) as Hk.
  apply group_entry; [lia |].
  apply (lxor_bound 8); [lia | apply byte_of_is_u8 |].
  exact (proj1 (Forall_lookup _ _) Hbytes k d Hkd).
Qed.

Lemma slice4_chunk (t : tables) (r d0 d1 d2 d3 : Z) (rest : list Z) :
  crc32_slice4 t r (d0 :: d1 :: d2 :: d3 :: rest) =
  crc32_slice4 t (slice_step t 4 r [d0; d1; d2; d3]) rest.
Proof. reflexivity. Qed.

Lemma slice4_short (t : tables) (r : Z) (data : list Z) :
  (length data < 4)%nat -> crc32_slice4 t r data = crc32_bytewise r data.
Proof.
  destruct data as [| a [| b [| c [| d rest]]]]; intros H;
    try (cbn [crc32_slice4]; reflexivity).
  cbn [length] in H. lia.
Qed.

Lemma slice8_chunk (t : tables) (r d0 d1 d2 d3 d4 d5 d6 d7 : Z)
      (rest : list Z) :
  crc32_slice8 t r (d0 :: d1 :: d2 :: d3 :: d4 :: d5 :: d6 :: d7 :: rest) =
  crc32_slice8 t (slice_step t 8 r [d0; d1; d2; d3; d4; d5; d6; d7]) rest.
Proof. reflexivity. Qed.

Lemma slice8_short (t : tables) (r : Z) (data : list Z) :
  (length data < 8)%nat -> crc32_slice8 t r data = crc32_bytewise r data.
Proof.
  destruct data
    as [| d0 [| d1 [| d2 [| d3 [| d4 [| d5 [| d6 [| d7 rest]]]]]]]];
    intros H; try (cbn [crc32_slice8]; reflexivity).
  cbn [length] in H. lia.
Qed.

Lemma slice4_bytewise (n : nat) :
  forall (data : list Z) (r : Z),
    (length data <= n)%nat -> Forall is_u8 data ->
    crc32_slice4 main_tables r data = crc32_bytewise r data.
Proof.
  induction n as [| n IH]; intros data r Hn Hb.
  - apply slice4_short. lia.
  - destruct (le_lt_dec 4 (length data)) as [Hge | Hlt];
      [| now apply slice4_short].
    destruct data as [| d0 [| d1 [| d2 [| d3 rest]]]];
      cbn [length] in Hn, Hge; try lia.
    change (d0 :: d1 :: d2 :: d3 :: rest)
      with ([d0; d1; d2; d3] ++ rest) in Hb |- * at 2.
    apply Forall_app in Hb as [Hchunk Hrest].
    rewrite slice4_chunk, slice_step_bytewise by (reflexivity || lia || assumption).
    rewrite IH by (lia || assumption).
    symmetry. apply bytewise_app.
Qed.

Lemma slice8_bytewise (n : nat) :
  forall (data : list Z) (r : Z),
    (length data <= n)%nat -> Forall is_u8 data ->
    crc32_slice8 main_tables r data = crc32_bytewise r data.
Proof.
  induction n as [| n IH]; intros data r Hn Hb.
  - apply slice8_short. lia.
  - destruct (le_lt_dec 8 (length data)) as [Hge | Hlt];
      [| now apply slice8_short].
    destruct data
      as [| d0 [| d1 [| d2 [| d3 [| d4 [| d5 [| d6 [| d7 rest]]]]]]]];
      cbn [length] in Hn, Hge; try lia.
    change (d0 :: d1 :: d2 :: d3 :: d4 :: d5 :: d6 :: d7 :: rest)
      with ([d0; d1; d2; d3; d4; d5; d6; d7] ++ rest) in Hb |- * at 2.
    apply Forall_app in Hb as [Hchunk Hrest].
    rewrite slice8_chunk, slice_step_bytewise by (reflexivity || lia || assumption).
    rewrite IH by (lia || assumption).
    symmetry. apply bytewise_app.
Qed.

(** C2: for every byte sequence and every initial 32-bit remainder,
    slice-by-4 and slice-by-8 over the generated table groups return the
    same 32-bit value as the byte-at-a-time loop that folds [update_byte]
    over the data. *)
Theorem slices_match_bytewise (data : list Z) (r : Z) :
  is_u32 r -> Forall is_u8 data ->
  crc32_slice4 main_tables r data = crc32_bytewise r data /\
  crc32_slice8 main_tables r data = crc32_bytewise r data /\
  is_u32 (crc32_bytewise r data).
Proof.
  intros Hr Hb. split; [| split].
  - now apply (slice4_bytewise (length data)).
  - now apply (slice8_bytewise (length data)).
  - now apply bytewise_u32.
Qed.

Lemma slices_match_bytewise_witness :
  crc32_slice4 main_tables 0xFFFFFFFF (bytes_of_string "123456789")
    = crc32_bytewise 0xFFFFFFFF (bytes_of_string "123456789") /\
  crc32_slice8 main_tables 0xFFFFFFFF (bytes_of_string "123456789")
    = crc32_bytewise 0xFFFFFFFF (bytes_of_string "123456789") /\
  is_u32 (crc32_bytewise 0xFFFFFFFF (bytes_of_string "123456789")).
Proof.
  apply slices_match_bytewise.
  - unfold is_u32. lia.
  - repeat constructor; unfold is_u8; lia.
Defined.

(** Sliding the window by one byte: the rolling update of the checksum of
    [outgoing :: mid] is the checksum of [mid ++ [incoming]]. *)
Lemma roll_slide (outgoing incoming : Z) (mid : list Z) :
  length mid = (W - 1)%nat -> is_u8 outgoing ->
  roll main_tables (crc32_bytewise 0 (outgoing :: mid)) incoming outgoing =
  crc32_bytewise 0 (mid ++ [incoming]).
Proof.
  intros Hlen [Ho0 Ho1]. unfold roll.
  assert (Hroll : crc32_rolling main_tables !!! Z.to_nat outgoing =
                  crc32_bytewise (crc32_update_byte 0 outgoing)
                                 (replicate (length (mid ++ [incoming])) 0)).
  { apply list_lookup_total_correct.
    rewrite rolling_lookup by (change (2 ^ 8) with 256 in Ho1; lia).
    rewrite Z2Nat.id by exact Ho0.
    rewrite length_app, Hlen. now rewrite bytewise_zeros. }
  rewrite Hroll.
  rewrite <- bytewise_snoc, <- app_comm_cons, bytewise_cons.
  rewrite <- (Z.lxor_0_r (crc32_update_byte 0 outgoing)) at 1.
  rewrite bytewise_superpose.
  rewrite Z.lxor_comm, <- Z.lxor_assoc, Z.lxor_nilpotent.
  apply Z.lxor_0_l.
Qed.

(** C1: for every window of [W = 16] bytes and every incoming byte, the
    rolling update [update_byte(remainder, incoming) XOR
    rolling_table[outgoing]], applied to the checksum of the window, is the
    checksum of the slid window computed from scratch from remainder 0;
    equal incoming and outgoing bytes and all-zero windows included. *)
Theorem roll_matches_scratch (outgoing incoming : Z) (mid : list Z) :
  length mid = (W - 1)%nat ->
  is_u8 outgoing -> is_u8 incoming -> Forall is_u8 mid ->
  roll main_tables (crc32_bytewise 0 (outgoing :: mid)) incoming outgoing =
  crc32_bytewise 0 (mid ++ [incoming]).
Proof. intros Hlen Hout _ _. now apply roll_slide. Qed.

Lemma roll_matches_scratch_witness :
  roll main_tables (crc32_bytewise 0 (0x41 :: replicate 15 0x42)) 0x41 0x41 =
  crc32_bytewise 0 (replicate 15 0x42 ++ [0x41]).
Proof.
  apply roll_matches_scratch.
  - reflexivity.
  - unfold is_u8. lia.
  - unfold is_u8. lia.
  - repeat constructor; unfold is_u8; lia.
Defined.

(** *** The scan holds the from-scratch checksum of every window *)

Lemma scan_pair (stream : list Z) (k : nat) (inc out : Z) :
  stream !! (W + k)%nat = Some inc -> stream !! k = Some out ->
  zip (drop W stream) stream !! k = Some (inc, out).
Proof.
  intros Hinc Hout.
  now rewrite lookup_zip_with, lookup_drop, Hinc, Hout.
Qed.

Lemma window_slide (stream : list Z) (k : nat) (inc out : Z) :
  stream !! (W + k)%nat = Some inc -> stream !! k = Some out ->
  exists mid, length mid = (W - 1)%nat /\
              window_bytes stream k = out :: mid /\
              window_bytes stream (S k) = mid ++ [inc].
Proof.
  intros Hinc Hout. unfold window_bytes.
  pose proof (lookup_lt_Some _ _ _ Hinc) as Hlen.
  exists (take (W - 1) (drop (S k) stream)). repeat split.
  - rewrite length_take, length_drop. unfold W in *. lia.
  - now rewrite (drop_S _ _ _ Hout).
  - change W with (S (W - 1)) at 1. apply take_S_r.
    rewrite lookup_drop, <- Hinc. f_equal. unfold W. lia.
Qed.

Lemma scan_step_current (t : tables) (st : scan_state) (inc out : Z) :
  current (scan_step t st (inc, out)) =
  Window (S (w_offset (current st))) (roll t (w_value (current st)) inc out).
Proof. reflexivity. Qed.

Lemma scan_step_observed (t : tables) (st : scan_state) (io : Z * Z) :
  observed (scan_step t st io) = observed st ++ [current (scan_step t st io)].
Proof. reflexivity. Qed.

(** After [k] steps the scan is at offset [k], and it has recorded the
    from-scratch checksum of each window so far. *)
Lemma scan_prefix (stream : list Z) (k : nat) :
  Forall is_u8 stream -> (W + k <= length stream)%nat ->
  let st := fold_left (scan_step main_tables)
              (take k (zip (drop W stream) stream))
              (ScanState (Window 0 (crc32_bytewise 0 (take W stream)))
                         [Window 0 (crc32_bytewise 0 (take W stream))] []) in
  current st = Window k (crc32_bytewise 0 (window_bytes stream k)) /\
  observed st =
  map (fun j => Window j (crc32_bytewise 0 (window_bytes stream j)))
      (seq 0 (S k)).
Proof.
  intros Hbytes. induction k as [| k IH]; intros Hlen st.
  - split; reflexivity.
  - destruct (lookup_lt_is_Some_2 stream k ltac:(lia)) as [out Hout].
    destruct (lookup_lt_is_Some_2 stream (W + k)%nat ltac:(lia)) as [inc Hinc].
    destruct (IH ltac:(lia)) as [Hcur Hobs].
    destruct (window_slide stream k inc out Hinc Hout)
      as (mid & Hmid & Hold & Hnew).
    assert (Hstep : current st =
              Window (S k) (crc32_bytewise 0 (window_bytes stream (S k)))).
    { subst st.
      rewrite (take_S_r _ _ _ (scan_pair stream k inc out Hinc Hout)).
      rewrite fold_left_app. cbn [fold_left].
      rewrite scan_step_current, Hcur. cbn [w_offset w_value].
      rewrite Hold, Hnew, roll_slide; [reflexivity | exact Hmid |].
      exact (proj1 (Forall_lookup _ _) Hbytes k out Hout). }
    split; [exact Hstep |].
    rewrite seq_S, map_app. cbn [map]. rewrite Nat.add_0_l, <- Hstep, <- Hobs.
    subst st.
    rewrite (take_S_r _ _ _ (scan_pair stream k inc out Hinc Hout)).
    rewrite fold_left_app. cbn [fold_left].
    apply scan_step_observed.
Qed.

(** At every offset the rolling checksum held by the scan is the checksum
    of the window computed from scratch. *)
Lemma rolling_value_scratch (stream : list Z) (offset : nat) :
  Forall is_u8 stream -> (W + offset <= length stream)%nat ->
  rolling_value main_tables stream offset =
  Some (crc32_bytewise 0 (window_bytes stream offset)).
Proof.
  intros Hbytes Hlen. unfold rolling_value, scan_run.
  destruct (Nat.ltb_spec (length stream) W) as [Hlt | Hge]; [lia |].
  cbv zeta.
  rewrite <- (take_ge (zip (drop W stream) stream) (length stream - W))
    by (rewrite length_zip_with, length_drop; lia).
  destruct (scan_prefix stream (length stream - W) Hbytes ltac:(lia))
    as [_ Hobs].
  rewrite Hobs, list_lookup_fmap, lookup_seq_lt by lia.
  reflexivity.
Qed.

(** C7: on the stream of sixteen 'A', sixteen 'B' and sixteen 'A' bytes,
    with [W = 16], the scan reports the offsets [(0, 32)] as a candidate
    match; the window at offset 16 is reported with neither offset 0 nor
    offset 32, and its rolling checksum differs from theirs. *)
Theorem scan_ABA :
  In (0, 32)%nat (scan main_tables stream_ABA) /\
  ~ In (0, 16)%nat (scan main_tables stream_ABA) /\
  ~ In (16, 32)%nat (scan main_tables stream_ABA) /\
  rolling_value main_tables stream_ABA 16 <>
    rolling_value main_tables stream_ABA 0 /\
  rolling_value main_tables stream_ABA 16 <>
    rolling_value main_tables stream_ABA 32.
Proof.
  assert (Hscan : scan main_tables stream_ABA = [(0, 32)%nat])
    by (vm_compute; reflexivity).
  rewrite Hscan. repeat split.
  - left. reflexivity.
  - intros [H | []]. discriminate H.
  - intros [H | []]. discriminate H.
  - vm_compute. discriminate.
  - vm_compute. discriminate.
Qed.

End EngineFacts.

(** ** The compression-level parser *)

Section ParserFacts.
Import ProgUtil.

Lemma to_int_small (x : Z) : 1 <= x <= 12 -> to_int x = x.
Proof. intros H. unfold to_int. rewrite Z.mod_small; lia. Qed.

(** C10: for every option character and every argument string,
    [parse_compression_level] returns either 0, after printing the error
    message, or an integer in the range [1, 12], printing nothing; it
    returns no other value.  This holds whatever the width of
    [unsigned long]. *)
Theorem parse_compression_level_range
        (ulong_bits opt_char : Z) (arg : option (list Z)) :
  let r := parse_compression_level ulong_bits opt_char arg in
  (fst r = 0 /\
   snd r = [Invalid_compression_level opt_char
              (match arg with None => [] | Some a => a end)]) \/
  (1 <= fst r <= 12 /\ snd r = []).
Proof.
  unfold parse_compression_level.
  destruct (digits_loop ulong_bits _ _) as [level p].
  destruct ((level <? 1) || (level >? 12) || negb (hd 0 p =? 0)) eqn:E;
    cbn [fst snd].
  - left. split; reflexivity.
  - right.
    apply orb_false_iff in E as [E _].
    apply orb_false_iff in E as [E1 E2].
    apply Z.ltb_ge in E1. rewrite Z.gtb_ltb in E2. apply Z.ltb_ge in E2.
    rewrite to_int_small by lia. split; [lia | reflexivity].
Qed.

End ParserFacts.

(** * Further properties of the generator *)

Section GeneratorMore.
Import Gen.

Lemma lxor_cancel_l (a b c : Z) : Z.lxor a b = Z.lxor a c -> b = c.
Proof.
  intros H.
  rewrite <- (Z.lxor_0_l b), <- (Z.lxor_0_l c), <- (Z.lxor_nilpotent a).
  now rewrite !Z.lxor_assoc, H.
Qed.

Lemma lxor_cancel_r (a b c : Z) : Z.lxor b a = Z.lxor c a -> b = c.
Proof. rewrite !(Z.lxor_comm _ a). apply lxor_cancel_l. Qed.

Lemma land_FF_is_u8 (r : Z) : is_u8 (Z.land r 0xFF).
Proof.
  change 0xFF with (Z.ones 8). rewrite Z.land_ones by lia. apply u8_is_u8.
Qed.

Lemma update_byte_via_table (r b : Z) :
  crc32_update_byte r b =
  Z.lxor (Z.shiftr r 8) (crc32_update_byte 0 (Z.lxor (Z.land r 0xFF) b)).
Proof.
  exact (step_via_table crc32_update_byte update_byte_lxor update_byte_shift8
                        update_byte_low r b).
Qed.

(** X1: neither step leaves 32 bits: from a 32-bit remainder, whatever the
    input, [crc32_update_bit] and [crc32_update_byte] return a 32-bit
    value, so the [uint32_t] results never wrap. *)
Theorem update_steps_stay_u32 (r b : Z) :
  is_u32 r ->
  is_u32 (crc32_update_bit r b) /\ is_u32 (crc32_update_byte r b).
Proof.
  intros Hr. split; [now apply update_bit_u32 | now apply update_byte_u32].
Qed.

Lemma update_steps_stay_u32_witness :
  is_u32 (crc32_update_bit 0xFFFFFFFF 1) /\
  is_u32 (crc32_update_byte 0xFFFFFFFF 1).
Proof. apply (update_steps_stay_u32 0xFFFFFFFF 1). unfold is_u32. lia. Defined.

(** X2: the byte step is one lookup in the generated base table: for a
    32-bit remainder [r] and a byte [b], the index [(r ^ b) & 0xFF] lies
    inside the first 256 entries and
    [update_byte(r, b) == (r >> 8) ^ crc32_table[(r ^ b) & 0xFF]]. *)
Theorem update_byte_by_table (r b : Z) :
  is_u32 r -> is_u8 b ->
  (Z.to_nat (Z.land (Z.lxor r b) 0xFF) < 0x100)%nat /\
  crc32_update_byte r b =
  Z.lxor (Z.shiftr r 8)
         (crc32_table main_tables !!! Z.to_nat (Z.land (Z.lxor r b) 0xFF)).
Proof.
  intros _ Hb.
  pose proof (land_FF_is_u8 (Z.lxor r b)) as [Hx0 Hx1].
  change (2 ^ 8) with 256 in Hx1.
  split; [lia |].
  rewrite update_byte_via_table.
  apply (f_equal (Z.lxor (Z.shiftr r 8))).
  symmetry. apply list_lookup_total_correct.
  rewrite table_base by lia. rewrite Z2Nat.id by exact Hx0.
  apply (f_equal (fun v => Some (crc32_update_byte 0 v))).
  rewrite land_lxor_distr_r.
  apply (f_equal (Z.lxor (Z.land r 0xFF))).
  change 0xFF with (Z.ones 8). rewrite Z.land_ones by lia.
  apply Z.mod_small, Hb.
Qed.

Lemma update_byte_by_table_witness :
  (Z.to_nat (Z.land (Z.lxor 0xDEADBEEF 0x41) 0xFF) < 0x100)%nat /\
  crc32_update_byte 0xDEADBEEF 0x41 =
  Z.lxor (Z.shiftr 0xDEADBEEF 8)
         (crc32_table main_tables
            !!! Z.to_nat (Z.land (Z.lxor 0xDEADBEEF 0x41) 0xFF)).
Proof.
  apply update_byte_by_table; [unfold is_u32 | unfold is_u8]; lia.
Defined.

Lemma base_top_bytes_check :
  forallb (fun i =>
    forallb (fun j =>
      (i =? j)%nat
      || negb (Z.shiftr (crc32_update_byte 0 (Z.of_nat i)) 24
               =? Z.shiftr (crc32_update_byte 0 (Z.of_nat j)) 24))
      (seq 0 256))
    (seq 0 256) = true.
Proof. vm_compute. reflexivity. Qed.

(** The top byte of a base-table entry determines its index. *)
Lemma base_top_bytes_distinct (x y : Z) :
  is_u8 x -> is_u8 y ->
  Z.shiftr (crc32_update_byte 0 x) 24 = Z.shiftr (crc32_update_byte 0 y) 24 ->
  x = y.
Proof.
  intros [Hx0 Hx1] [Hy0 Hy1] H.
  change (2 ^ 8) with 256 in Hx1, Hy1.
  pose proof (proj1 (forallb_forall _ _) base_top_bytes_check (Z.to_nat x))
    as Hi.
  cbv beta in Hi.
  specialize (Hi ltac:(apply in_seq; lia)).
  pose proof (proj1 (forallb_forall _ _) Hi (Z.to_nat y)
                    ltac:(apply in_seq; lia)) as Hj.
  cbv beta in Hj. rewrite !Z2Nat.id in Hj by assumption.
  rewrite H, Z.eqb_refl, orb_false_r in Hj.
  apply Nat.eqb_eq in Hj. lia.
Qed.

Lemma shiftr_u32_32 (r : Z) : is_u32 r -> Z.shiftr (Z.shiftr r 8) 24 = 0.
Proof.
  intros Hr. rewrite Z.shiftr_shiftr by lia.
  rewrite Z.shiftr_div_pow2 by lia. apply Z.div_small. exact Hr.
Qed.

(** Equal results of the byte step come from equal table indices. *)
Lemma update_byte_same_index (r1 r2 b1 b2 : Z) :
  is_u32 r1 -> is_u32 r2 -> is_u8 b1 -> is_u8 b2 ->
  crc32_update_byte r1 b1 = crc32_update_byte r2 b2 ->
  Z.lxor (Z.land r1 0xFF) b1 = Z.lxor (Z.land r2 0xFF) b2.
Proof.
  intros Hr1 Hr2 Hb1 Hb2 H.
  rewrite (update_byte_via_table r1), (update_byte_via_table r2) in H.
  apply (f_equal (fun v => Z.shiftr v 24)) in H. cbv beta in H.
  rewrite !Z.shiftr_lxor, !shiftr_u32_32, !Z.lxor_0_l in H by assumption.
  apply base_top_bytes_distinct in H; [exact H | |].
  - apply (lxor_bound 8); [lia | apply land_FF_is_u8 | exact Hb1].
  - apply (lxor_bound 8); [lia | apply land_FF_is_u8 | exact Hb2].
Qed.

Lemma update_byte_inj_remainder (r1 r2 b : Z) :
  is_u32 r1 -> is_u32 r2 -> is_u8 b ->
  crc32_update_byte r1 b = crc32_update_byte r2 b -> r1 = r2.
Proof.
  intros Hr1 Hr2 Hb H.
  pose proof (update_byte_same_index r1 r2 b b Hr1 Hr2 Hb Hb H) as Hidx.
  rewrite (update_byte_via_table r1), (update_byte_via_table r2), Hidx in H.
  apply lxor_cancel_r in H. apply lxor_cancel_r in Hidx.
  rewrite (split_low_byte r1), (split_low_byte r2).
  now rewrite H, Hidx.
Qed.

Lemma update_byte_inj_byte (r b1 b2 : Z) :
  is_u32 r -> is_u8 b1 -> is_u8 b2 ->
  crc32_update_byte r b1 = crc32_update_byte r b2 -> b1 = b2.
Proof.
  intros Hr Hb1 Hb2 H.
  apply (update_byte_same_index r r b1 b2 Hr Hr Hb1 Hb2) in H.
  now apply lxor_cancel_l in H.
Qed.

(** X3: the byte step loses no information.  On 32-bit remainders and
    bytes, [update_byte(r1, b) == update_byte(r2, b)] only when [r1 == r2],
    and [update_byte(r, b1) == update_byte(r, b2)] only when [b1 == b2]. *)
Theorem update_byte_injective :
  (forall r1 r2 b : Z, is_u32 r1 -> is_u32 r2 -> is_u8 b ->
     crc32_update_byte r1 b = crc32_update_byte r2 b -> r1 = r2) /\
  (forall r b1 b2 : Z, is_u32 r -> is_u8 b1 -> is_u8 b2 ->
     crc32_update_byte r b1 = crc32_update_byte r b2 -> b1 = b2).
Proof.
  split; [exact update_byte_inj_remainder | exact update_byte_inj_byte].
Qed.

Lemma update_byte_injective_witness :
  crc32_update_byte 0x12345678 0x41 <> crc32_update_byte 0x12345679 0x41.
Proof.
  intros H.
  apply (proj1 update_byte_injective 0x12345678 0x12345679 0x41) in H;
    unfold is_u32, is_u8; lia.
Defined.

Lemma iter_zero_step_u32 (k : nat) (x : Z) :
  is_u32 x -> is_u32 (Nat.iter k zero_step x).
Proof.
  intros Hx. induction k as [| k IH]; [exact Hx |].
  rewrite Nat.iter_succ. unfold zero_step at 1.
  exact (update_byte_u32 _ 0 IH).
Qed.

Lemma iter_zero_step_inj (k : nat) (x y : Z) :
  is_u32 x -> is_u32 y ->
  Nat.iter k zero_step x = Nat.iter k zero_step y -> x = y.
Proof.
  intros Hx Hy. induction k as [| k IH]; [trivial |].
  rewrite !Nat.iter_succ. unfold zero_step at 1 3. intros H. apply IH.
  refine (update_byte_inj_remainder _ _ 0 _ _ _ H);
    [now apply iter_zero_step_u32 | now apply iter_zero_step_u32
     | unfold is_u8; lia].
Qed.

Lemma base_entry_u32 (i : nat) : is_u32 (crc32_update_byte 0 (Z.of_nat i)).
Proof. refine (update_byte_u32 0 _ _). unfold is_u32. lia. Qed.

Lemma tail_entry_inj (k i j : nat) :
  (i < 0x100)%nat -> (j < 0x100)%nat ->
  Nat.iter k zero_step (crc32_update_byte 0 (Z.of_nat i)) =
  Nat.iter k zero_step (crc32_update_byte 0 (Z.of_nat j)) -> i = j.
Proof.
  intros Hi Hj H.
  pose proof (iter_zero_step_inj k _ _ (base_entry_u32 i) (base_entry_u32 j) H)
    as H'.
  assert (Hz : Z.of_nat i = Z.of_nat j); [| lia].
  refine (update_byte_inj_byte 0 _ _ _ _ _ H');
    [unfold is_u32; lia | unfold is_u8; lia | unfold is_u8; lia].
Qed.

Lemma rolling_length : length (crc32_rolling main_tables) = 0x100%nat.
Proof.
  rewrite main_rolling_eq.
  destruct (fill_rolling_spec (replicate 0x100 0)) as [Hl _];
    [rewrite length_replicate; lia |].
  etransitivity; [exact Hl | apply length_replicate].
Qed.

Lemma rolling_entries_u32 : Forall is_u32 (crc32_rolling main_tables).
Proof.
  apply Forall_lookup. intros j x Hj.
  pose proof (lookup_lt_Some _ _ _ Hj) as Hlt. rewrite rolling_length in Hlt.
  rewrite rolling_lookup in Hj by exact Hlt.
  apply (inj Some) in Hj. rewrite <- Hj.
  apply iter_zero_step_u32, base_entry_u32.
Qed.

(** X4: the generator fills both arrays completely with 32-bit values:
    [crc32_table] keeps its 0x800 entries and [crc32_rolling] its 0x100,
    and every entry lies in [0, 2^32), so [%08x] prints each in exactly
    eight digits. *)
Theorem generated_tables_u32 :
  length (crc32_table main_tables) = 0x800%nat /\
  length (crc32_rolling main_tables) = 0x100%nat /\
  Forall is_u32 (crc32_table main_tables) /\
  Forall is_u32 (crc32_rolling main_tables).
Proof.
  split; [exact table_length |]. split; [exact rolling_length |]. split.
  - apply Forall_lookup. intros j x Hj.
    pose proof (lookup_lt_Some _ _ _ Hj) as Hlt. rewrite table_length in Hlt.
    pose proof (Nat.div_mod_eq j 0x100) as Hdm.
    pose proof (Nat.mod_upper_bound j 0x100 ltac:(lia)) as Hmod.
    assert (Hk : (j `div` 0x100 < 8)%nat)
      by (apply Nat.Div0.div_lt_upper_bound; lia).
    replace j with (j `div` 0x100 * 0x100 + j `mod` 0x100)%nat in Hj by lia.
    rewrite table_group in Hj by assumption.
    apply (inj Some) in Hj. rewrite <- Hj.
    apply iter_zero_step_u32, base_entry_u32.
  - exact rolling_entries_u32.
Qed.

(** X5: within each of the eight 256-entry groups of [crc32_table], and
    within [crc32_rolling], the entries are pairwise distinct: two byte
    values never share an entry. *)
Theorem generated_groups_distinct :
  (forall k i j : nat, (k < 8)%nat -> (i < 0x100)%nat -> (j < 0x100)%nat ->
     crc32_table main_tables !! (k * 0x100 + i)%nat =
     crc32_table main_tables !! (k * 0x100 + j)%nat -> i = j) /\
  (forall i j : nat, (i < 0x100)%nat -> (j < 0x100)%nat ->
     crc32_rolling main_tables !! i = crc32_rolling main_tables !! j ->
     i = j).
Proof.
  split.
  - intros k i j Hk Hi Hj H.
    rewrite !table_group in H by assumption.
    apply (inj Some) in H. now apply tail_entry_inj in H.
  - intros i j Hi Hj H.
    rewrite !rolling_lookup in H by assumption.
    apply (inj Some) in H. now apply tail_entry_inj in H.
Qed.

Lemma generated_groups_distinct_witness :
  crc32_table main_tables !! (3 * 0x100 + 7)%nat <>
  crc32_table main_tables !! (3 * 0x100 + 8)%nat.
Proof.
  intros H.
  apply (proj1 generated_groups_distinct 3%nat 7%nat 8%nat) in H; lia.
Defined.

End GeneratorMore.

(** * Further properties of [programs/prog_util.c] *)

Section ParserMore.
Import ProgUtil.

Variable ulong_bits : Z.

Lemma digits_loop_digits (ds : list Z) (acc : Z) :
  Forall is_digit ds ->
  digits_loop ulong_bits (ulong ulong_bits acc) ds =
  (ulong ulong_bits (decimal_value acc ds), []).
Proof.
  revert acc. induction ds as [| c ds IH]; intros acc Hds.
  - reflexivity.
  - apply Forall_cons_1 in Hds as [[Hc0 Hc1] Hds].
    cbn [digits_loop decimal_value fold_left].
    apply Z.leb_le in Hc0, Hc1. rewrite Hc0, Hc1. cbn [andb].
    replace (ulong ulong_bits (ulong ulong_bits acc * 10 + (c - 48)))
      with (ulong ulong_bits (acc * 10 + (c - 48))).
    + apply IH, Hds.
    + unfold ulong.
      now rewrite <- Zplus_mod_idemp_l, <- Zmult_mod_idemp_l, Zplus_mod_idemp_l.
Qed.

Lemma digits_loop_stops (ds rest : list Z) (c acc : Z) :
  Forall is_digit ds -> ~ is_digit c ->
  digits_loop ulong_bits (ulong ulong_bits acc) (ds ++ c :: rest) =
  (ulong ulong_bits (decimal_value acc ds), c :: rest).
Proof.
  revert acc. induction ds as [| d ds IH]; intros acc Hds Hc.
  - cbn [app digits_loop decimal_value fold_left].
    destruct ((48 <=? c) && (c <=? 57)) eqn:E; [| reflexivity].
    apply andb_true_iff in E as [E0 E1].
    apply Z.leb_le in E0, E1. exfalso. apply Hc. split; assumption.
  - apply Forall_cons_1 in Hds as [[Hd0 Hd1] Hds].
    cbn [app digits_loop decimal_value fold_left].
    apply Z.leb_le in Hd0, Hd1. rewrite Hd0, Hd1. cbn [andb].
    replace (ulong ulong_bits (ulong ulong_bits acc * 10 + (d - 48)))
      with (ulong ulong_bits (acc * 10 + (d - 48))).
    + now apply IH.
    + unfold ulong.
      now rewrite <- Zplus_mod_idemp_l, <- Zmult_mod_idemp_l, Zplus_mod_idemp_l.
Qed.

(** X6: when the argument consists of decimal digits only, the outcome is
    decided by the number that the option character and the digits spell,
    reduced modulo [2^ulong_bits]: the function returns that value, without
    a message, when it lies in [1, 12], and 0 with the message otherwise.
    Leading zeros are accepted, and so is a number that is too large but
    wraps around into [1, 12]. *)
Theorem parse_compression_level_digits (opt_char : Z) (ds : list Z) :
  Forall is_digit ds ->
  parse_compression_level ulong_bits opt_char (Some ds) =
  let v := (decimal_value (opt_char - 48) ds) mod 2 ^ ulong_bits in
  if (1 <=? v) && (v <=? 12) then (v, [])
  else (0, [Invalid_compression_level opt_char ds]).
Proof.
  intros Hds. unfold parse_compression_level.
  rewrite (digits_loop_digits ds (opt_char - 48) Hds).
  cbn [hd]. cbv zeta. unfold ulong.
  set (v := decimal_value (opt_char - 48) ds mod 2 ^ ulong_bits).
  change (0 =? 0) with true. cbn [negb]. rewrite orb_false_r.
  destruct (Z.leb_spec 1 v) as [H1 | H1];
    destruct (Z.leb_spec v 12) as [H2 | H2]; cbn [andb].
  - destruct (Z.ltb_spec v 1); [lia |].
    rewrite Z.gtb_ltb. destruct (Z.ltb_spec 12 v); [lia |].
    cbn [orb]. now rewrite to_int_small by lia.
  - rewrite Z.gtb_ltb. destruct (Z.ltb_spec 12 v); [| lia].
    now rewrite orb_true_r.
  - destruct (Z.ltb_spec v 1); [reflexivity | lia].
  - destruct (Z.ltb_spec v 1); [reflexivity | lia].
Qed.

(** X7: a character that is neither a digit nor NUL, anywhere after the
    leading digits of the argument, makes the function return 0 and print
    the message, whatever the digits before it. *)
Theorem parse_compression_level_junk
        (opt_char c : Z) (ds rest : list Z) :
  Forall is_digit ds -> ~ is_digit c -> c <> 0 ->
  parse_compression_level ulong_bits opt_char (Some (ds ++ c :: rest)) =
  (0, [Invalid_compression_level opt_char (ds ++ c :: rest)]).
Proof.
  intros Hds Hc Hc0. unfold parse_compression_level.
  rewrite (digits_loop_stops ds rest c (opt_char - 48) Hds Hc).
  cbn [hd]. destruct (Z.eqb_spec c 0) as [-> | _]; [contradiction |].
  cbn [negb]. now rewrite orb_true_r.
Qed.

End ParserMore.

Lemma parse_compression_level_digits_witness :
  ProgUtil.parse_compression_level 64 49 (Some [50]) = (12, []).
Proof.
  apply (parse_compression_level_digits 64 49 [50]).
  repeat constructor; unfold is_digit; lia.
Defined.

Lemma parse_compression_level_junk_witness :
  ProgUtil.parse_compression_level 64 49 (Some [50; 120]) =
  (0, [ProgUtil.Invalid_compression_level 49 [50; 120]]).
Proof.
  apply (parse_compression_level_junk 64 49 120 [50] []).
  - repeat constructor; unfold is_digit; lia.
  - unfold is_digit. lia.
  - lia.
Defined.

Section PathFacts.
Import ProgPaths.

Lemma tstrrchr_lt (s : list Z) (c : Z) (i : nat) :
  tstrrchr s c = Some i -> (i < length s)%nat.
Proof.
  revert i. induction s as [| x s IH]; intros i; cbn [tstrrchr length].
  - discriminate.
  - destruct (tstrrchr s c) as [j |].
    + intros [= <-]. specialize (IH j eq_refl). lia.
    + destruct (x =? c); [intros [= <-]; lia | discriminate].
Qed.

Lemma tstrrchr_absent (s : list Z) (c : Z) :
  (c ∉ s) -> tstrrchr s c = None.
Proof.
  induction s as [| x s IH]; intros Hc; cbn [tstrrchr]; [reflexivity |].
  apply not_elem_of_cons in Hc as [Hx Hs].
  rewrite (IH Hs). destruct (Z.eqb_spec x c); [congruence | reflexivity].
Qed.

Lemma tstrrchr_app_absent (l1 l2 : list Z) (c : Z) :
  (c ∉ l2) -> tstrrchr (l1 ++ l2) c = tstrrchr l1 c.
Proof.
  intros Hc. induction l1 as [| x l1 IH]; cbn [app tstrrchr].
  - now apply tstrrchr_absent.
  - now rewrite IH.
Qed.

Lemma tstrrchr_last (l1 l2 : list Z) (c : Z) :
  (c ∉ l2) -> tstrrchr (l1 ++ c :: l2) c = Some (length l1).
Proof.
  intros Hc. induction l1 as [| x l1 IH]; cbn [app tstrrchr length].
  - rewrite (tstrrchr_absent _ _ Hc). now rewrite Z.eqb_refl.
  - now rewrite IH.
Qed.

Lemma tstrrchr_before (l1 l2 : list Z) (c d : Z) :
  c <> d -> (c ∉ l2) ->
  tstrrchr (l1 ++ d :: l2) c = None \/
  exists i, tstrrchr (l1 ++ d :: l2) c = Some i /\ (i < length l1)%nat.
Proof.
  intros Hcd Hc.
  replace (l1 ++ d :: l2) with (l1 ++ [d] ++ l2) by reflexivity.
  rewrite tstrrchr_app_absent.
  - destruct (tstrrchr l1 c) as [i |] eqn:E; [right | now left].
    exists i. split; [reflexivity |]. now apply tstrrchr_lt in E.
  - cbn [app]. apply not_elem_of_cons. split; assumption.
Qed.

Lemma no_sep_absent (win32 : bool) (name : list Z) :
  (forall c, c ∈ name -> ~ is_sep win32 c) ->
  (47 ∉ name) /\ (win32 = true -> (92 ∉ name)).
Proof.
  intros H. split.
  - intros Hin. apply (H 47 Hin). now left.
  - intros Hw Hin. apply (H 92 Hin). now right.
Qed.

Lemma get_filename_pos_join (win32 : bool) (dir name : list Z) (sep : Z) :
  is_sep win32 sep -> (forall c, c ∈ name -> ~ is_sep win32 c) ->
  get_filename_pos win32 (dir ++ sep :: name) = S (length dir).
Proof.
  intros Hsep Hname.
  destruct (no_sep_absent win32 name Hname) as [H47 H92].
  unfold get_filename_pos. destruct win32.
  - specialize (H92 eq_refl).
    destruct Hsep as [-> | [_ ->]].
    + rewrite (tstrrchr_last dir name 47 H47).
      destruct (tstrrchr_before dir name 92 47 ltac:(lia) H92)
        as [-> | (b & -> & Hb)]; [reflexivity |].
      destruct (Nat.ltb_spec (length dir) b); [lia | reflexivity].
    + rewrite (tstrrchr_last dir name 92 H92).
      destruct (tstrrchr_before dir name 47 92 ltac:(lia) H47)
        as [-> | (s & -> & Hs)]; [reflexivity |].
      destruct (Nat.ltb_spec s (length dir)); [reflexivity | lia].
  - destruct Hsep as [-> | [Hw _]]; [| discriminate].
    now rewrite (tstrrchr_last dir name 47 H47).
Qed.

Lemma get_filename_pos_plain (win32 : bool) (path : list Z) :
  (forall c, c ∈ path -> ~ is_sep win32 c) ->
  get_filename_pos win32 path = 0%nat.
Proof.
  intros Hpath.
  destruct (no_sep_absent win32 path Hpath) as [H47 H92].
  unfold get_filename_pos. rewrite (tstrrchr_absent _ _ H47).
  destruct win32; [| reflexivity].
  now rewrite (tstrrchr_absent _ _ (H92 eq_refl)).
Qed.

Lemma is_sep_dec (win32 : bool) (c : Z) :
  {is_sep win32 c} + {~ is_sep win32 c}.
Proof.
  unfold is_sep.
  destruct (Z.eq_dec c 47) as [-> | H47]; [left; now left |].
  destruct win32; [| right; intros [? | [? _]]; congruence].
  destruct (Z.eq_dec c 92) as [-> | H92]; [left; now right |].
  right. intros [? | [_ ?]]; congruence.
Qed.

(** Every path either has no separator or splits at its last one. *)
Lemma split_at_last_sep (win32 : bool) (path : list Z) :
  (forall c, c ∈ path -> ~ is_sep win32 c) \/
  exists dir sep name,
    path = dir ++ sep :: name /\ is_sep win32 sep /\
    forall c, c ∈ name -> ~ is_sep win32 c.
Proof.
  induction path as [| x path IH].
  - left. intros c Hc. now apply elem_of_nil in Hc.
  - destruct IH as [Hnone | (dir & sep & name & -> & Hsep & Hname)].
    + destruct (is_sep_dec win32 x) as [Hx | Hx].
      * right. exists [], x, path. repeat split; assumption.
      * left. intros c Hc. apply elem_of_cons in Hc as [-> | Hc]; auto.
    + right. exists (x :: dir), sep, name. repeat split; assumption.
Qed.

(** [get_filename] on a path cut at its last separator. *)
Lemma get_filename_cut (win32 : bool) (dir name : list Z) (sep : Z) :
  is_sep win32 sep -> (forall c, c ∈ name -> ~ is_sep win32 c) ->
  get_filename win32 (dir ++ sep :: name) = name /\
  get_filename win32 name = name.
Proof.
  intros Hsep Hname. unfold get_filename. split.
  - rewrite (get_filename_pos_join win32 dir name sep Hsep Hname).
    replace (dir ++ sep :: name) with ((dir ++ [sep]) ++ name)
      by now rewrite <- app_assoc.
    replace (S (length dir)) with (length (dir ++ [sep]))
      by (rewrite length_app; cbn [length]; lia).
    apply drop_app_length.
  - now rewrite (get_filename_pos_plain win32 name Hname).
Qed.

(** X8: [get_filename] returns what follows the last separator: for a path
    [dir ++ sep :: name] whose [name] has no separator it returns [name]
    (the empty string when the path ends in a separator, as the comment in
    the source warns), and a path without separator is returned whole.  The
    separator is the slash, and on Windows also the backslash. *)
Theorem get_filename_join (win32 : bool) (dir name : list Z) (sep : Z) :
  is_sep win32 sep -> (forall c, c ∈ name -> ~ is_sep win32 c) ->
  get_filename win32 (dir ++ sep :: name) = name /\
  get_filename win32 name = name.
Proof. exact (get_filename_cut win32 dir name sep). Qed.

Lemma get_filename_join_witness :
  get_filename false ([47; 117; 115; 114] ++ 47 :: [108; 115]) = [108; 115] /\
  get_filename false [108; 115] = [108; 115].
Proof.
  apply get_filename_join.
  - now left.
  - intros c Hc [H | [H _]]; [| discriminate].
    subst c. apply elem_of_cons in Hc as [Hc | Hc]; [lia |].
    apply elem_of_cons in Hc as [Hc | Hc]; [lia |].
    now apply elem_of_nil in Hc.
Defined.

(** X9: for every path, the result of [get_filename] is a suffix of the
    path that contains no separator, and the part before it is empty or
    ends in a separator; applying [get_filename] to its own result changes
    nothing. *)
Theorem get_filename_suffix (win32 : bool) (path : list Z) :
  (exists dir,
     path = dir ++ get_filename win32 path /\
     (dir = [] \/ exists d sep, dir = d ++ [sep] /\ is_sep win32 sep)) /\
  (forall c, c ∈ get_filename win32 path -> ~ is_sep win32 c) /\
  get_filename win32 (get_filename win32 path) = get_filename win32 path.
Proof.
  destruct (split_at_last_sep win32 path)
    as [Hnone | (dir & sep & name & -> & Hsep & Hname)].
  - assert (E : get_filename win32 path = path).
    { unfold get_filename. now rewrite (get_filename_pos_plain _ _ Hnone). }
    rewrite !E. split; [| split; [exact Hnone | reflexivity]].
    exists []. split; [reflexivity | now left].
  - destruct (get_filename_cut win32 dir name sep Hsep Hname) as [E1 E2].
    rewrite !E1. split; [| split; [exact Hname | exact E2]].
    exists (dir ++ [sep]). split; [now rewrite <- app_assoc |].
    right. now exists dir, sep.
Qed.

End PathFacts.

(** ** Reading and writing *)

Section IOFacts.
Import ProgIO.

Variable size_bits : Z.
Hypothesis size_bits_pos : 1 <= size_bits.

Lemma pow2_size_bits : 2 ^ size_bits = 2 * 2 ^ (size_bits - 1).
Proof. rewrite <- Z.pow_succ_r by lia. f_equal. lia. Qed.

Lemma to_ssize_small (x : Z) :
  0 <= x < 2 ^ (size_bits - 1) -> to_ssize size_bits x = x.
Proof.
  intros Hx. unfold to_ssize. pose proof pow2_size_bits.
  rewrite Z.mod_small by lia. lia.
Qed.

Lemma to_size_small (x : Z) :
  0 <= x < 2 ^ (size_bits - 1) -> to_size size_bits x = x.
Proof.
  intros Hx. unfold to_size. pose proof pow2_size_bits.
  apply Z.mod_small. lia.
Qed.

(** Taking an answer leaves everything but the script as it is. *)
Lemma next_answer_spec (w : world) :
  let '(r, e, w1) := next_answer w in
  w_errno w1 = w_errno w /\ w_calls w1 = w_calls w /\
  w_stderr w1 = w_stderr w /\ w_input w1 = w_input w /\
  w_output w1 = w_output w /\ w_junk w1 = w_junk w /\
  w_script w1 = tail (w_script w).
Proof.
  unfold next_answer.
  destruct (w_script w) as [| [r e] s] eqn:E; cbn; rewrite ?E; tauto.
Qed.

(** What one [read] of [count > 0] bytes does. *)
Lemma sys_read_spec (fd count : Z) (w : world) :
  0 < count ->
  let '(res, bytes, w') := sys_read fd count w in
  w_output w' = w_output w /\ w_stderr w' = w_stderr w /\
  w_input w = bytes ++ w_input w' /\
  ((res = -1 /\ bytes = []) \/
   (res = Z.of_nat (length bytes) /\ res <= count /\
    (res = 0 -> w_input w' = []))).
Proof.
  intros Hc. unfold sys_read.
  pose proof (next_answer_spec w) as Hn.
  destruct (next_answer w) as [[r e] w1].
  destruct Hn as (_ & _ & Herr & Hin & Hout & _ & _).
  destruct (Z.ltb_spec r 0) as [Hr | Hr].
  - cbn. rewrite Hin, Hout, Herr. repeat split; try reflexivity. now left.
  - cbn. rewrite Hin, Hout, Herr.
    set (cap := if r =? 0 then count else Z.min r count).
    assert (Hcap : 0 < cap <= count).
    { subst cap. destruct (Z.eqb_spec r 0); lia. }
    repeat split.
    + symmetry. apply take_drop.
    + right. repeat split.
      * rewrite length_take. lia.
      * intros H0. rewrite length_take in H0.
        apply drop_ge. lia.
Qed.

Lemma xread_loop_spec (strm : file_stream) (orig : Z) (fuel : nat) :
  forall (count : Z) (buf : list Z) (w : world),
    0 <= count <= orig -> orig < 2 ^ (size_bits - 1) ->
    (Z.to_nat count <= fuel)%nat ->
    exists ret bytes w',
      xread_loop size_bits fuel strm orig count buf w
        = Some (ret, buf ++ bytes, w') /\
      w_input w = bytes ++ w_input w' /\
      w_output w' = w_output w /\
      ((ret = orig - count + Z.of_nat (length bytes) /\
        Z.of_nat (length bytes) <= count /\
        w_stderr w' = w_stderr w /\
        (Z.of_nat (length bytes) < count -> w_input w' = [])) \/
       (ret = -1 /\
        exists e, w_stderr w' =
                  w_stderr w ++ [Line (Error_reading (name_text strm))
                                      (Some e)])).
Proof.
  induction fuel as [| fuel IH]; intros count buf w Hc Ho Hf.
  - assert (count = 0) as -> by lia. cbn [xread_loop Z.eqb].
    exists (orig - 0), [], w. rewrite app_nil_r, to_ssize_small by lia.
    repeat split; try reflexivity. left. cbn [length]. repeat split; lia.
  - cbn [xread_loop]. destruct (Z.eqb_spec count 0) as [-> | Hnz].
    + exists (orig - 0), [], w. rewrite app_nil_r, to_ssize_small by lia.
      repeat split; try reflexivity. left. cbn [length]. repeat split; lia.
    + pose proof (sys_read_spec (fd strm) (Z.min count INT_MAX) w
                                ltac:(unfold INT_MAX; lia)) as Hr.
      destruct (sys_read (fd strm) (Z.min count INT_MAX) w)
        as [[res bytes] w1].
      destruct Hr as (Hout & Herr & Hin & Hres).
      destruct (Z.eqb_spec res 0) as [-> | Hres0].
      * destruct Hres as [[? _] | (Hlen & _ & Hend)]; [lia |].
        assert (bytes = []) as ->
            by (destruct bytes; [easy | cbn in Hlen; lia]).
        exists (orig - count), [], w1.
        rewrite app_nil_r, to_ssize_small by lia.
        repeat split; try assumption.
        left. cbn [length]. repeat split; try lia; try assumption.
        intros _. now apply Hend.
      * destruct (Z.ltb_spec res 0) as [Hneg | Hpos].
        -- destruct Hres as [[_ ->] | (Hlen & _)]; [| lia].
           exists (-1), [], (msg_errno (Error_reading (name_text strm)) w1).
           rewrite app_nil_r.
           repeat split; try assumption.
           right. split; [reflexivity |]. exists (w_errno w1).
           cbn. now rewrite Herr.
        -- destruct Hres as [[? _] | (Hlen & Hle & _)]; [lia |].
           destruct (IH (count - res) (buf ++ bytes) w1 ltac:(lia) Ho
                        ltac:(lia))
             as (ret & bytes' & w' & Heq & Hin' & Hout' & Hcase).
           exists ret, (bytes ++ bytes'), w'.
           rewrite app_assoc. split; [exact Heq |].
           split; [now rewrite Hin, Hin', app_assoc |].
           split; [congruence |].
           rewrite length_app, Nat2Z.inj_add.
           destruct Hcase as [(Hret & Hle' & Herr' & Hend') | (Hret & e & He)].
           ++ left. repeat split; try lia; try congruence.
              intros Hlt. apply Hend'. lia.
           ++ right. split; [exact Hret |]. exists e. now rewrite He, Herr.
Qed.

(** [xread]: what it returns, stores and prints. *)
Lemma xread_spec (strm : file_stream) (count : Z) (w : world) :
  0 <= count < 2 ^ (size_bits - 1) ->
  exists ret buf w',
    xread size_bits strm count w = Some (ret, buf, w') /\
    w_input w = buf ++ w_input w' /\
    w_output w' = w_output w /\
    ((ret = Z.of_nat (length buf) /\ ret <= count /\
      w_stderr w' = w_stderr w /\
      (ret < count -> w_input w' = [])) \/
     (ret = -1 /\
      exists e, w_stderr w' =
                w_stderr w ++ [Line (Error_reading (name_text strm))
                                    (Some e)])).
Proof.
  intros Hc. unfold xread.
  destruct (xread_loop_spec strm count (Z.to_nat count) count [] w
                            ltac:(lia) ltac:(lia) ltac:(lia))
    as (ret & bytes & w' & Heq & Hin & Hout & Hcase).
  exists ret, bytes, w'. cbn [app] in Heq.
  repeat split; try assumption.
  destruct Hcase as [(Hret & Hle & Herr & Hend) | Hfail]; [left | now right].
  split; [lia |]. split; [lia |]. split; [exact Herr |].
  intros Hlt. apply Hend. lia.
Qed.






Lemma sys_read_calls (fd count : Z) (w : world) :
  let '(res, bytes, w') := sys_read fd count w in
  w_calls w' = w_calls w ++ [Read fd count res].
Proof.
  unfold sys_read.
  pose proof (next_answer_spec w) as Hn.
  destruct (next_answer w) as [[r e] w1].
  destruct Hn as (_ & Hcalls & _).
  destruct (r <? 0); cbn; now rewrite Hcalls.
Qed.

Lemma xread_loop_calls (strm : file_stream) (orig : Z) (fuel : nat) :
  forall (count : Z) (buf : list Z) (w : world) ret buf' w',
    xread_loop size_bits fuel strm orig count buf w = Some (ret, buf', w') ->
    exists reads, w_calls w' = w_calls w ++ reads /\ Forall is_read reads.
Proof.
  induction fuel as [| fuel IH]; intros count buf w ret buf' w';
    cbn [xread_loop]; destruct (count =? 0).
  - intros [= _ _ <-]. exists []. now rewrite app_nil_r.
  - discriminate.
  - intros [= _ _ <-]. exists []. now rewrite app_nil_r.
  - pose proof (sys_read_calls (fd strm) (Z.min count INT_MAX) w) as Hc.
    destruct (sys_read (fd strm) (Z.min count INT_MAX) w) as [[res bytes] w1].
    assert (Hone : Forall is_read [Read (fd strm) (Z.min count INT_MAX) res])
      by (repeat constructor).
    destruct (res =? 0); [| destruct (res <? 0)].
    + intros [= _ _ <-]. eauto.
    + intros [= _ _ <-]. cbn. eauto.
    + intros Heq. destruct (IH _ _ _ _ _ _ Heq) as (reads & Hcalls & Hreads).
      exists (Read (fd strm) (Z.min count INT_MAX) res :: reads).
      split; [| now constructor].
      rewrite Hcalls, Hc, <- app_assoc. reflexivity.
Qed.

(** [xmalloc] of a positive size calls [malloc] once. *)
Lemma xmalloc_spec (size : Z) (w : world) :
  0 < size ->
  let '(p, w') := xmalloc size w in
  w_calls w' = w_calls w ++ [Malloc size p] /\
  w_input w' = w_input w /\ w_output w' = w_output w /\
  w_junk w' = w_junk w /\ w_script w' = tail (w_script w) /\
  w_stderr w' = w_stderr w ++ (if p =? 0 then [Line Out_of_memory None]
                               else []).
Proof.
  intros Hs. unfold xmalloc, sys_malloc.
  pose proof (next_answer_spec w) as Hn.
  destruct (next_answer w) as [[r e] w1].
  destruct Hn as (_ & Hcalls & Herr & Hin & Hout & Hjunk & Hscript).
  destruct (Z.eqb_spec size 0) as [? | _]; [lia |].
  rewrite andb_false_r.
  destruct (r =? 0); cbn; rewrite Hcalls, Hin, Hout, Herr, Hjunk, Hscript;
    rewrite ?app_nil_r; tauto.
Qed.

(** X23: [xmalloc] returns a null pointer exactly when it has printed "Out
    of memory", and prints nothing otherwise.  It calls [malloc] once, and
    a second time, for one byte, only when zero bytes were requested and
    the first call returned a null pointer.  It neither reads nor
    writes. *)
Theorem xmalloc_result (size : Z) (w : world) :
  let '(p, w') := xmalloc size w in
  exists first,
    w_calls w' =
      w_calls w ++ Malloc size first
                   :: (if (first =? 0) && (size =? 0) then [Malloc 1 p]
                       else []) /\
    (first <> 0 \/ size <> 0 -> p = first) /\
    w_stderr w' =
      w_stderr w ++ (if p =? 0 then [Line Out_of_memory None] else []) /\
    w_input w' = w_input w /\ w_output w' = w_output w.
Proof.
  unfold xmalloc, sys_malloc.
  pose proof (next_answer_spec w) as Hn.
  destruct (next_answer w) as [[r e] w1].
  destruct Hn as (_ & Hcalls & Herr & Hin & Hout & _ & _).
  destruct (Z.eqb_spec r 0) as [-> | Hr];
    [destruct (Z.eqb_spec size 0) as [-> | Hs] |]; cbn [andb].
  - pose proof (next_answer_spec (record_call (Malloc 0 0) w1)) as Hn.
    destruct (next_answer (record_call (Malloc 0 0) w1)) as [[r2 e2] w2].
    destruct Hn as (_ & Hcalls2 & Herr2 & Hin2 & Hout2 & _ & _).
    cbn in Hcalls2, Herr2, Hin2, Hout2.
    exists 0. cbn [Z.eqb andb].
    destruct (r2 =? 0); cbn;
      rewrite Hcalls2, Herr2, Hin2, Hout2, Hcalls, Herr, Hin, Hout,
        <- ?app_assoc, ?app_nil_r;
      repeat split; lia.
  - exists 0. cbn. rewrite Hcalls, Herr, Hin, Hout.
    destruct (Z.eqb_spec size 0); [contradiction |].
    repeat split.
  - exists r. destruct (Z.eqb_spec r 0) as [? | _]; [contradiction |].
    cbn. rewrite Hcalls, Herr, Hin, Hout, app_nil_r. repeat split.
Qed.

Lemma skip_loop_spec (strm : file_stream) (bufsize : Z) (fuel : nat) :
  forall (count : Z) (w : world),
    0 < bufsize -> 0 < count < 2 ^ (size_bits - 1) ->
    (Z.to_nat count <= fuel)%nat ->
    exists ret w',
      skip_loop size_bits fuel strm bufsize count w = Some (ret, w') /\
      w_output w' = w_output w /\
      (exists reads, w_calls w' = w_calls w ++ reads /\ Forall is_read reads) /\
      ((ret = 0 /\
        (exists skipped, w_input w = skipped ++ w_input w' /\
                         Z.of_nat (length skipped) = count) /\
        w_stderr w' = w_stderr w) \/
       (ret = -1 /\
        exists l, w_stderr w' = w_stderr w ++ [l] /\
          ((exists e, l = Line (Error_reading (name_text strm)) (Some e)) \/
           (l = Line (Unexpected_eof (name_text strm)) None /\
            w_input w' = [])))).
Proof.
  induction fuel as [| fuel IH]; intros count w Hb Hc Hf; [lia |].
  cbn [skip_loop]. set (n := Z.min count bufsize).
  assert (Hn : 0 < n <= count) by (subst n; lia).
  destruct (xread_spec strm n w ltac:(lia))
    as (ret & buf & w1 & Heq & Hin & Hout & Hcase).
  rewrite Heq.
  destruct (xread_loop_calls _ _ _ _ _ _ _ _ _ Heq) as (reads & Hcalls & Hreads).
  destruct Hcase as [(Hret & Hle & Herr & Hend) | (Hret & e & He)].
  - destruct (Z.ltb_spec ret 0) as [? | _]; [lia |].
    rewrite to_size_small by lia.
    destruct (Z.eqb_spec ret n) as [Hfull | Hshort]; cbn [negb].
    + destruct (Z.eqb_spec (count - ret) 0) as [Hdone | Hmore].
      * exists 0, w1. repeat split; try assumption; eauto.
        left. repeat split; try assumption.
        exists buf. split; [exact Hin | lia].
      * destruct (IH (count - ret) w1 Hb ltac:(lia) ltac:(lia))
          as (ret' & w' & Heq' & Hout' & (reads' & Hcalls' & Hreads') & Hcase').
        exists ret', w'. split; [exact Heq' |]. split; [congruence |].
        split.
        { exists (reads ++ reads'). split.
          - now rewrite Hcalls', Hcalls, app_assoc.
          - now apply Forall_app. }
        destruct Hcase' as [(Hr' & (sk & Hsk & Hlen) & Herr') | (Hr' & l & Hl & Hwhy)].
        -- left. repeat split; [exact Hr' | | congruence].
           exists (buf ++ sk). split.
           ++ now rewrite Hin, Hsk, app_assoc.
           ++ rewrite length_app. lia.
        -- right. split; [exact Hr' |]. exists l. split; [congruence |].
           exact Hwhy.
    + exists (-1), (msg (Unexpected_eof (name_text strm)) w1).
      repeat split; try assumption; eauto.
      right. split; [reflexivity |].
      exists (Line (Unexpected_eof (name_text strm)) None).
      split; [cbn; now rewrite Herr |].
      right. split; [reflexivity |]. cbn. apply Hend. lia.
  - subst ret. cbn [Z.ltb Z.compare].
    exists (-1), w1. repeat split; try assumption; eauto.
    right. split; [reflexivity |].
    exists (Line (Error_reading (name_text strm)) (Some e)).
    split; [exact He |]. left. now exists e.
Qed.

Lemma skip_bytes_spec (strm : file_stream) (count : Z) (w : world) :
  0 < count < 2 ^ (size_bits - 1) ->
  exists ret w' b reads,
    skip_bytes size_bits strm count w = Some (ret, w') /\
    w_output w' = w_output w /\
    Forall is_read reads /\
    w_calls w' =
      w_calls w ++ Malloc (Z.min count 4096) b
                   :: (if b =? 0 then [] else reads ++ [Free (Heap b)]) /\
    ((ret = 0 /\
      (exists skipped, w_input w = skipped ++ w_input w' /\
                       Z.of_nat (length skipped) = count) /\
      w_stderr w' = w_stderr w) \/
     (ret = -1 /\
      exists l, w_stderr w' = w_stderr w ++ [l] /\
        (l = Line Out_of_memory None \/
         (exists e, l = Line (Error_reading (name_text strm)) (Some e)) \/
         (l = Line (Unexpected_eof (name_text strm)) None /\
          w_input w' = [])))).
Proof.
  intros Hc. unfold skip_bytes.
  destruct (Z.eqb_spec count 0) as [? | _]; [lia |].
  pose proof (xmalloc_spec (Z.min count 4096) w ltac:(lia)) as Hm.
  destruct (xmalloc (Z.min count 4096) w) as [b w1].
  destruct Hm as (Hcalls & Hin & Hout & _ & _ & Herr).
  destruct (Z.eqb_spec b 0) as [-> | Hb].
  - exists (-1), w1, 0, []. cbn [Z.eqb] in *.
    repeat split; try assumption; [constructor |].
    right. split; [reflexivity |]. exists (Line Out_of_memory None).
    split; [exact Herr | now left].
  - destruct (skip_loop_spec strm (Z.min count 4096) (Z.to_nat count) count w1
                             ltac:(lia) Hc ltac:(lia))
      as (ret & w' & Heq & Hout' & (reads & Hcalls' & Hreads) & Hcase).
    rewrite Heq. rewrite app_nil_r in Herr.
    exists ret, (sys_free (Heap b) w'), b, reads.
    destruct (Z.eqb_spec b 0) as [? | _]; [contradiction |].
    split; [reflexivity |]. split; [cbn; congruence |].
    split; [exact Hreads |]. split.
    { cbn. rewrite Hcalls', Hcalls, <- !app_assoc. reflexivity. }
    cbn [sys_free record_call w_input w_stderr].
    destruct Hcase as [(Hr & (sk & Hsk & Hlen) & Herr') | (Hr & l & Hl & Hwhy)].
    + left. repeat split; [exact Hr | | congruence].
      exists sk. split; [congruence | exact Hlen].
    + right. split; [exact Hr |]. exists l. split; [congruence |].
      right. exact Hwhy.
Qed.


(** X13: [skip_bytes] of a positive count allocates one buffer of
    [MIN(count, 4096)] bytes; when the allocation fails it makes no other
    call, and when it succeeds every later call is a [read] until the
    buffer is freed by the last call, on the success path and on both
    error paths alike. *)
Theorem skip_bytes_buffer (strm : file_stream) (count : Z) (w : world) :
  0 < count < 2 ^ (size_bits - 1) ->
  exists ret w' b reads,
    skip_bytes size_bits strm count w = Some (ret, w') /\
    Forall is_read reads /\
    w_calls w' =
      w_calls w ++ Malloc (Z.min count 4096) b
                   :: (if b =? 0 then [] else reads ++ [Free (Heap b)]).
Proof.
  intros Hc.
  destruct (skip_bytes_spec strm count w Hc)
    as (ret & w' & b & reads & Heq & _ & Hreads & Hcalls & _).
  now exists ret, w', b, reads.
Qed.

End IOFacts.



Lemma skip_bytes_buffer_witness :
  exists ret w' b reads,
    ProgIO.skip_bytes 64 io_stream_example 4 io_world_example
      = Some (ret, w') /\
    Forall is_read reads /\
    ProgIO.w_calls w' =
      ProgIO.w_calls io_world_example
      ++ ProgIO.Malloc (Z.min 4 4096) b
         :: (if b =? 0 then [] else reads ++ [ProgIO.Free (ProgIO.Heap b)]).
Proof.
  apply (skip_bytes_buffer 64 ltac:(lia) io_stream_example 4 io_world_example).
  lia.
Defined.

(** ** Streams: opening, mapping and closing *)

Section StreamFacts.
Import ProgIO.

(** *** Memory blocks *)

Lemma store_middle (pre post : list Z) (x v : Z) :
  store (pre ++ x :: post) (length pre) v = Some (pre ++ v :: post).
Proof.
  unfold store. rewrite length_app. cbn [length].
  destruct (Nat.ltb_spec (length pre) (length pre + S (length post)));
    [| lia].
  f_equal. rewrite <- (Nat.add_0_r (length pre)) at 1.
  now rewrite insert_app_r.
Qed.

Lemma tmemcpy_middle (src : list Z) :
  forall pre mid post : list Z,
    length mid = length src ->
    tmemcpy (pre ++ mid ++ post) (length pre) src = Some (pre ++ src ++ post).
Proof.
  induction src as [| c src IH]; intros pre mid post Hlen.
  - destruct mid; [reflexivity | discriminate].
  - destruct mid as [| m mid]; [discriminate |].
    cbn [tmemcpy app]. rewrite store_middle.
    injection Hlen as Hlen.
    replace (pre ++ c :: mid ++ post) with ((pre ++ [c]) ++ mid ++ post)
      by now rewrite <- app_assoc.
    replace (S (length pre)) with (length (pre ++ [c]))
      by (rewrite length_app; cbn; lia).
    rewrite (IH _ _ _ Hlen). now rewrite <- app_assoc.
Qed.

Lemma cstring_until_nul (l r : list Z) :
  (0 ∉ l) -> cstring (l ++ 0 :: r) = l.
Proof.
  induction l as [| c l IH]; intros Hl; cbn [app cstring].
  - reflexivity.
  - apply not_elem_of_cons in Hl as [Hc Hl].
    destruct (Z.eqb_spec c 0) as [-> | _]; [contradiction |].
    now rewrite IH.
Qed.

(** A block of [n + 3] cells is a first cell, [n] cells and two more. *)
Lemma block_shape (n : nat) (blk : list Z) :
  length blk = (n + 3)%nat ->
  exists a mid b c, blk = [a] ++ mid ++ [b; c] /\ length mid = n.
Proof.
  intros Hlen. destruct blk as [| a rest]; [cbn in Hlen; lia |].
  cbn [length] in Hlen.
  exists a, (take n rest).
  pose proof (take_drop n rest) as Hsplit.
  assert (Hd : length (drop n rest) = 2%nat) by (rewrite length_drop; lia).
  destruct (drop n rest) as [| b [| c [| ? ?]]]; try discriminate.
  exists b, c. split.
  - cbn [app]. now rewrite Hsplit.
  - rewrite length_take. lia.
Qed.

(** The four stores of [quote_path] on a block of the right size. *)
Lemma quote_stores {A : Type} (path blk : list Z) (k : list Z -> option A) :
  length blk = (length path + 3)%nat ->
  (buf ← store blk 0 char_dquote;
   buf ← tmemcpy buf 1 path;
   buf ← store buf (1 + length path) char_dquote;
   buf ← store buf (1 + length path + 1) 0;
   k buf)
  = k (char_dquote :: path ++ [char_dquote; 0]).
Proof.
  intros Hlen.
  destruct (block_shape _ _ Hlen) as (a & mid & b & c & -> & Hmid).
  pose proof (store_middle [] (mid ++ [b; c]) a char_dquote) as S1.
  pose proof (tmemcpy_middle path [char_dquote] mid [b; c] Hmid) as S2.
  pose proof (store_middle (char_dquote :: path) [c] b char_dquote) as S3.
  pose proof (store_middle (char_dquote :: path ++ [char_dquote]) [] c 0)
    as S4.
  cbn [app length] in S1, S2, S3, S4.
  rewrite length_app, <- !app_assoc in S4. cbn [app length] in S4.
  cbn [app]. rewrite S1. cbn [mbind option_bind].
  rewrite S2. cbn [mbind option_bind].
  change (1 + length path)%nat with (S (length path)).
  rewrite S3. cbn [mbind option_bind].
  replace (S (length path) + 1)%nat with (S (length path + 1)) by lia.
  rewrite S4. reflexivity.
Qed.


(** *** What the single calls do to the world *)

Lemma sys_status_spec (mk : Z -> call) (w : world) :
  let '(r, w') := sys_status mk w in
  (r = 0 \/ r = -1) /\
  w_calls w' = w_calls w ++ [mk r] /\
  w_stderr w' = w_stderr w /\
  w_script w' = tail (w_script w).
Proof.
  unfold sys_status.
  pose proof (next_answer_spec w) as Hn.
  destruct (next_answer w) as [[r e] w1].
  destruct Hn as (_ & Hcalls & Herr & _ & _ & _ & Hscript).
  destruct (r =? 0); cbn; rewrite Hcalls, Herr, Hscript; tauto.
Qed.

Lemma sys_result_spec (mk : Z -> call) (w : world) :
  let '(r, w') := sys_result mk w in
  (r = -1 \/ 0 <= r) /\
  w_calls w' = w_calls w ++ [mk r] /\
  w_stderr w' = w_stderr w /\
  w_script w' = tail (w_script w) /\
  (w_script w = [] -> r = 0).
Proof.
  unfold sys_result, next_answer.
  destruct (w_script w) as [| [r e] s] eqn:E.
  - cbn. rewrite E. repeat split; try reflexivity; lia.
  - destruct (Z.ltb_spec r 0); cbn; repeat split; try reflexivity;
      try lia; discriminate.
Qed.

Lemma sys_isatty_spec (fd : Z) (w : world) :
  let '(t, w') := sys_isatty fd w in
  w_calls w' = w_calls w ++ [Isatty fd t] /\
  w_stderr w' = w_stderr w /\
  w_script w' = tail (w_script w).
Proof.
  unfold sys_isatty.
  pose proof (next_answer_spec w) as Hn.
  destruct (next_answer w) as [[r e] w1].
  destruct Hn as (_ & Hcalls & Herr & _ & _ & _ & Hscript).
  cbn. rewrite Hcalls, Herr, Hscript. tauto.
Qed.

Lemma sys_getchar_spec (w : world) :
  let '(c, w') := sys_getchar w in
  w_calls w' = w_calls w ++ [Getchar c] /\
  w_stderr w' = w_stderr w /\
  w_script w' = tail (w_script w).
Proof.
  unfold sys_getchar.
  pose proof (next_answer_spec w) as Hn.
  destruct (next_answer w) as [[r e] w1].
  destruct Hn as (_ & Hcalls & Herr & _ & _ & _ & Hscript).
  cbn. rewrite Hcalls, Herr, Hscript. tauto.
Qed.

Lemma sys_mmap_spec (size fd : Z) (w : world) :
  let '(m, w') := sys_mmap size fd w in
  (m = -1 \/ 0 < m) /\
  w_calls w' = w_calls w ++ [Mmap size fd m] /\
  w_stderr w' = w_stderr w.
Proof.
  unfold sys_mmap.
  pose proof (next_answer_spec w) as Hn.
  destruct (next_answer w) as [[r e] w1].
  destruct Hn as (_ & Hcalls & Herr & _).
  destruct (Z.leb_spec r 0); cbn; rewrite Hcalls, Herr;
    repeat split; lia.
Qed.

(** *** Closing *)

(** X15: after [xclose] the stream has descriptor -1 and a null name, and
    a second [xclose] returns 0 without calling anything.  A standard
    stream, or one whose descriptor is negative, is left alone: nothing is
    closed, freed or unmapped.  Otherwise the descriptor is closed once,
    the name freed once and the mapping, if there is one, unmapped; the
    value returned is that of [close], with one "Error closing" line when
    it failed. *)
Theorem xclose_result (strm : file_stream) (w : world) :
  let '(ret, strm', w') := xclose strm w in
  fd strm' = -1 /\ name strm' = Null /\
  xclose strm' w' = (0, strm', w') /\
  if (0 <=? fd strm) && negb (is_standard_stream strm) then
    mmap_mem strm' = 0 /\
    w_calls w' =
      w_calls w ++ Close (fd strm) ret :: Free (name strm)
                   :: (if mmap_mem strm =? 0 then []
                       else [Munmap (mmap_mem strm) (mmap_size strm)]) /\
    ((ret = 0 /\ w_stderr w' = w_stderr w) \/
     (ret = -1 /\
      exists e, w_stderr w' =
                w_stderr w ++ [Line (Error_closing (name_text strm))
                                    (Some e)]))
  else ret = 0 /\ w' = w /\ mmap_mem strm' = mmap_mem strm.
Proof.
  unfold xclose.
  destruct ((0 <=? fd strm) && negb (is_standard_stream strm)) eqn:Hopen.
  - unfold sys_close.
    pose proof (sys_status_spec (Close (fd strm)) w) as Hc.
    destruct (sys_status (Close (fd strm)) w) as [c w1].
    destruct Hc as (Hc & Hcalls & Herr & _).
    destruct Hc as [-> | ->]; cbn [Z.eqb negb];
      destruct (Z.eqb_spec (mmap_mem strm) 0) as [Hm | Hm]; cbn;
      rewrite ?Hcalls, ?Herr, <- ?app_assoc; cbn;
      repeat split; eauto.
  - cbn. repeat split.
Qed.

(** [xclose] of an open stream that is not a standard one. *)
Lemma xclose_open (strm : file_stream) (w : world) :
  0 <= fd strm -> is_standard_stream strm = false ->
  exists c s' w',
    xclose strm w = (c, s', w') /\
    mmap_mem s' = 0 /\
    w_calls w' =
      w_calls w ++ Close (fd strm) c :: Free (name strm)
                   :: (if mmap_mem strm =? 0 then []
                       else [Munmap (mmap_mem strm) (mmap_size strm)]).
Proof.
  intros Hfd Hstd. unfold xclose.
  destruct (Z.leb_spec 0 (fd strm)) as [_ | ?]; [| lia].
  rewrite Hstd. cbn [andb negb]. unfold sys_close.
  pose proof (sys_status_spec (Close (fd strm)) w) as Hc.
  destruct (sys_status (Close (fd strm)) w) as [c w1].
  destruct Hc as (Hc & Hcalls & _ & _).
  destruct Hc as [-> | ->]; cbn [Z.eqb negb];
    destruct (Z.eqb_spec (mmap_mem strm) 0) as [Hm | Hm];
    eexists _, _, _; (split; [reflexivity |]); cbn;
    rewrite ?Hcalls, <- ?app_assoc; cbn; split; try reflexivity; exact Hm.
Qed.

(** *** Quoting and opening for reading *)

Variable size_bits : Z.
Variable tchar_size : Z.
Hypothesis tchar_size_pos : 0 < tchar_size.

Lemma quote_size (path : list Z) :
  (Z.of_nat (length path) + 3) * tchar_size < 2 ^ size_bits ->
  let size :=
    to_size size_bits ((1 + Z.of_nat (length path) + 1 + 1) * tchar_size) in
  0 < size /\ Z.to_nat (size / tchar_size) = (length path + 3)%nat.
Proof.
  intros Hfit. cbv zeta. unfold to_size.
  replace (1 + Z.of_nat (length path) + 1 + 1)
    with (Z.of_nat (length path) + 3) by lia.
  rewrite Z.mod_small by nia.
  split; [nia |].
  rewrite Z.div_mul by lia. lia.
Qed.

(** [quote_path], with what [xmalloc] did to the world. *)
Lemma quote_path_spec (path : list Z) (w : world) :
  (Z.of_nat (length path) + 3) * tchar_size < 2 ^ size_bits ->
  exists a w',
    w_calls w' =
      w_calls w
      ++ [Malloc (to_size size_bits
                    ((1 + Z.of_nat (length path) + 1 + 1) * tchar_size)) a] /\
    w_input w' = w_input w /\ w_output w' = w_output w /\
    w_script w' = tail (w_script w) /\
    w_stderr w' = w_stderr w ++ (if a =? 0 then [Line Out_of_memory None]
                                 else []) /\
    quote_path size_bits tchar_size path w =
    Some (if a =? 0 then (Null, [], w')
          else (Heap a, char_dquote :: path ++ [char_dquote; 0], w')).
Proof.
  intros Hfit. destruct (quote_size path Hfit) as [Hpos Hcap].
  unfold quote_path.
  pose proof (xmalloc_spec _ w Hpos) as Hm.
  destruct (xmalloc _ w) as [a w1].
  destruct Hm as (Hcalls & Hin & Hout & Hjunk & Hscript & Herr).
  exists a, w1. repeat split; try assumption.
  destruct (a =? 0); [reflexivity |].
  rewrite Hcap.
  exact (quote_stores path (resize (length path + 3) 0 (w_junk w1))
                      (fun buf => Some (Heap a, buf, w1))
                      (length_resize _ _ _)).
Qed.



(** X17: [xopen_for_read] of a path releases what it acquired when it
    fails, and hands over exactly one descriptor and one name when it
    succeeds.  After a failed allocation nothing else is called; after a
    failed [open] the name is freed and the descriptor left at -1, so that
    a later [xclose] does nothing; after success the stream holds the
    opened descriptor and the quoted path, and [xclose] closes that
    descriptor once and frees that name once. *)
Theorem xopen_for_read_result
        (path : list Z) (strm : file_stream) (w : world) :
  (0 ∉ path) ->
  (Z.of_nat (length path) + 3) * tchar_size < 2 ^ size_bits ->
  exists r s w' a,
    xopen_for_read size_bits tchar_size (Some path) strm w = Some (r, s, w') /\
    let size :=
      to_size size_bits ((1 + Z.of_nat (length path) + 1 + 1) * tchar_size) in
    (a = 0 /\ r = -1 /\ name s = Null /\
     w_calls w' = w_calls w ++ [Malloc size 0]) \/
    (a <> 0 /\ r = -1 /\ fd s = -1 /\
     w_calls w' =
       w_calls w ++ [Malloc size a; Open path Open_read (-1); Free (Heap a)] /\
     (exists e, w_stderr w' =
                w_stderr w
                ++ [Line (Cant_open_for_reading
                            (char_dquote :: path ++ [char_dquote]))
                         (Some e)]) /\
     exists s', xclose s w' = (0, s', w')) \/
    (a <> 0 /\ r = 0 /\ 0 <= fd s /\ name s = Heap a /\
     name_text s = char_dquote :: path ++ [char_dquote] /\
     is_standard_stream s = false /\ mmap_mem s = 0 /\
     w_stderr w' = w_stderr w /\
     w_calls w' =
       w_calls w ++ [Malloc size a; Open path Open_read (fd s)] /\
     exists c s' w'',
       xclose s w' = (c, s', w'') /\
       w_calls w'' = w_calls w' ++ [Close (fd s) c; Free (Heap a)]).
Proof.
  intros Hnul Hfit.
  destruct (quote_path_spec path w Hfit)
    as (a & w1 & Hcalls & _ & _ & _ & Herr & Heq).
  assert (Hname : cstring (char_dquote :: path ++ [char_dquote; 0])
                  = char_dquote :: path ++ [char_dquote]).
  { replace (char_dquote :: path ++ [char_dquote; 0])
      with ((char_dquote :: path ++ [char_dquote]) ++ 0 :: [])
      by (cbn; now rewrite <- app_assoc).
    apply cstring_until_nul.
    apply not_elem_of_cons. split; [discriminate |].
    apply not_elem_of_app. split; [exact Hnul |].
    apply not_elem_of_cons. split; [discriminate | apply not_elem_of_nil]. }
  unfold xopen_for_read. rewrite Heq.
  destruct (Z.eqb_spec a 0) as [-> | Ha]; cbn [mbind option_bind].
  - eexists _, _, w1, 0. split; [reflexivity |].
    left. cbn. repeat split. exact Hcalls.
  - rewrite app_nil_r in Herr. rewrite Hname. unfold sys_open.
    pose proof (sys_result_spec (Open path Open_read) w1) as Ho.
    destruct (sys_result (Open path Open_read) w1) as [r w2].
    destruct Ho as (Hr & Hcalls2 & Herr2 & _ & _).
    destruct (Z.ltb_spec r 0) as [Hneg | Hpos].
    + assert (r = -1) as -> by lia.
      eexists _, _, _, a. split; [reflexivity |].
      right. left.
      cbn [fd name name_text is_standard_stream mmap_mem set_fd set_name
           set_standard set_mmap_mem xclose sys_free record_call msg_errno
           do_msg print_line w_calls w_stderr w_errno Z.leb Z.compare andb].
      rewrite Hcalls2, Hcalls, Herr2, Herr.
      rewrite <- !app_assoc. cbn [app]. repeat split; eauto.
    + eexists _, _, _, a. split; [reflexivity |].
      right. right. cbn [fd name name_text is_standard_stream mmap_mem
                         set_fd set_name set_standard set_mmap_mem].
      rewrite Hcalls2, Hcalls, Herr2, Herr, <- !app_assoc. cbn [app].
      repeat split; try assumption.
      destruct (xclose_open
                  (set_fd r (set_name (Heap a)
                    (char_dquote :: path ++ [char_dquote])
                    (set_standard false (set_mmap_mem 0 strm)))) w2
                  Hpos eq_refl) as (c & s' & w3 & Hx & _ & Hx').
      exists c, s', w3. split; [exact Hx |].
      cbn in Hx'. rewrite Hx', Hcalls2, Hcalls, <- !app_assoc. reflexivity.
Qed.

(** *** Opening for writing *)

Variable EEXIST : Z.

Lemma unlink_guarded_app (path : list Z) (overwrite : bool)
      (a b : list call) :
  unlink_guarded path overwrite a -> unlink_guarded path overwrite b ->
  unlink_guarded path overwrite (a ++ b).
Proof.
  intros Ha Hb i p u H. apply lookup_app_Some in H as [H | [Hle H]].
  - destruct (Ha _ _ _ H) as [-> Hpre]. split; [reflexivity |].
    intros Hov. destruct (Hpre Hov) as (j & -> & Hj).
    exists j. split; [reflexivity |]. now apply lookup_app_l_Some.
  - destruct (Hb _ _ _ H) as [-> Hpre]. split; [reflexivity |].
    intros Hov. destruct (Hpre Hov) as (j & Hi & Hj).
    exists (length a + j)%nat. split; [lia |].
    rewrite lookup_app_r by lia.
    now replace (length a + j - length a)%nat with j by lia.
Qed.

Ltac guard_concrete :=
  let H := fresh "H" in
  intros ? ? ? H; cbn in H;
  repeat match type of H with
         | (_ :: _) !! ?i = Some _ =>
             destruct i;
             [cbn in H; try discriminate H;
              try (injection H as <- <-; split;
                   [reflexivity
                   | intros ?; try discriminate;
                     eexists; split; reflexivity])
             | cbn in H]
         end;
  try discriminate H.

Ltac no_free_concrete :=
  repeat (constructor; [cbn; tauto |]); constructor.

(* A branch that ends at the label [err], or with success: the calls are
   known; [tac] rewrites the world of the goal into the initial one. *)
Ltac close_branch tac :=
  split; [reflexivity |];
  split; [cbn; tac; rewrite <- ?app_assoc; reflexivity |];
  split; [no_free_concrete |];
  split; [guard_concrete |];
  split; [reflexivity |]; split; [reflexivity |];
  split; [reflexivity |]; split; [reflexivity |].

Lemma open_retry_spec (path : list Z) (overwrite : bool) (fuel : nat) :
  forall (strm : file_stream) (w : world),
    (length (w_script w) < fuel)%nat ->
    exists r s w' pre last,
      open_retry EEXIST fuel path overwrite strm w = Some (r, s, w') /\
      w_calls w' = w_calls w ++ pre ++ [last] /\
      Forall (fun c => ~ is_free c) pre /\
      unlink_guarded path overwrite (pre ++ [last]) /\
      name s = name strm /\ name_text s = name_text strm /\
      is_standard_stream s = is_standard_stream strm /\
      mmap_mem s = mmap_mem strm /\
      ((r = 0 /\ 0 <= fd s /\ last = Open path Open_write_excl (fd s)) \/
       (r = -1 /\ fd s = -1 /\ last = Free (name strm) /\
        exists l, w_stderr w' = w_stderr w ++ l /\ l <> [])).
Proof.
  induction fuel as [| fuel IH]; intros strm w Hf; [lia |].
  cbn [open_retry]. unfold sys_open.
  pose proof (sys_result_spec (Open path Open_write_excl) w) as Ho.
  destruct (sys_result (Open path Open_write_excl) w) as [r w1].
  destruct Ho as (Hr & Hc1 & He1 & Hs1 & Hempty).
  apply (f_equal (@length _)) in Hs1. rewrite length_tl in Hs1.
  destruct (Z.ltb_spec r 0) as [Hneg | Hpos].
  2:{ exists 0, (set_fd r strm), w1, [], (Open path Open_write_excl r).
      close_branch ltac:(rewrite Hc1).
      left. repeat split. exact Hpos. }
  assert (r = -1) as -> by lia.
  assert (Hne : (0 < length (w_script w))%nat).
  { destruct (w_script w); [specialize (Hempty eq_refl); lia | cbn; lia]. }
  destruct (Z.eqb_spec (w_errno w1) EEXIST) as [Hex | Hother]; cbn [negb].
  2:{ eexists (-1), _, _, [Open path Open_write_excl (-1)], _.
      close_branch ltac:(rewrite Hc1).
      right. repeat split. cbn. rewrite He1.
      eexists. split; [reflexivity | discriminate]. }
  destruct overwrite.
  - (* overwrite: straight to unlink *)
    unfold sys_unlink.
    pose proof (sys_status_spec (Unlink path) w1) as Hu.
    destruct (sys_status (Unlink path) w1) as [u w2].
    destruct Hu as (Hu & Hc2 & He2 & Hs2).
    apply (f_equal (@length _)) in Hs2. rewrite length_tl in Hs2.
    destruct Hu as [-> | ->]; cbn [Z.eqb negb].
    + destruct (IH (set_fd (-1) strm) w2 ltac:(lia))
        as (r & s & w' & pre & last & Heq & Hc & Hnf & Hg & Hn & Hnt & Hstd
            & Hmm & Hcase).
      exists r, s, w',
        ([Open path Open_write_excl (-1); Unlink path 0] ++ pre), last.
      split; [exact Heq |].
      split; [rewrite Hc, Hc2, Hc1, <- !app_assoc; reflexivity |].
      split; [apply Forall_app; split; [no_free_concrete | exact Hnf] |].
      split.
      { rewrite <- app_assoc. apply unlink_guarded_app; [| exact Hg].
        guard_concrete. }
      repeat split; try assumption.
      destruct Hcase as [Hok | (Hr' & Hfd & Hl & l & Hl' & Hnil)];
        [now left | right].
      repeat split; try assumption.
      exists l. split; [congruence | exact Hnil].
    + eexists (-1), _, _,
        [Open path Open_write_excl (-1); Unlink path (-1)], _.
      close_branch ltac:(rewrite Hc2, Hc1).
      right. repeat split. cbn. rewrite He2, He1.
      eexists. split; [reflexivity | discriminate].
  - (* no overwrite: ask first *)
    pose proof (sys_isatty_spec STDERR_FILENO w1) as Ht.
    destruct (sys_isatty STDERR_FILENO w1) as [t2 w2].
    destruct Ht as (Hc2 & He2 & Hs2).
    apply (f_equal (@length _)) in Hs2. rewrite length_tl in Hs2.
    destruct (Z.eqb_spec t2 0) as [-> | Ht2].
    { eexists (-1), _, _,
        [Open path Open_write_excl (-1); Isatty STDERR_FILENO 0], _.
      close_branch ltac:(rewrite Hc2, Hc1).
      right. repeat split. cbn. rewrite He2, He1.
      eexists. split; [reflexivity | discriminate]. }
    pose proof (sys_isatty_spec STDIN_FILENO w2) as Ht.
    destruct (sys_isatty STDIN_FILENO w2) as [t0 w3].
    destruct Ht as (Hc3 & He3 & Hs3).
    apply (f_equal (@length _)) in Hs3. rewrite length_tl in Hs3.
    destruct (Z.eqb_spec t0 0) as [-> | Ht0].
    { eexists (-1), _, _,
        [Open path Open_write_excl (-1); Isatty STDERR_FILENO t2;
         Isatty STDIN_FILENO 0], _.
      close_branch ltac:(rewrite Hc3, Hc2, Hc1).
      right. repeat split. cbn. rewrite He3, He2, He1.
      eexists. split; [reflexivity | discriminate]. }
    set (w3' := print_line _ w3).
    pose proof (sys_getchar_spec w3') as Hg.
    destruct (sys_getchar w3') as [c w4].
    destruct Hg as (Hc4 & He4 & Hs4).
    apply (f_equal (@length _)) in Hs4. rewrite length_tl in Hs4.
    subst w3'. cbn [print_line w_calls w_stderr w_script] in Hc4, He4, Hs4.
    destruct (Z.eqb_spec c char_y) as [-> | Hno]; cbn [negb].
    2:{ eexists (-1), _, _,
          [Open path Open_write_excl (-1); Isatty STDERR_FILENO t2;
           Isatty STDIN_FILENO t0; Getchar c], _.
        close_branch ltac:(rewrite Hc4, Hc3, Hc2, Hc1).
        right. repeat split. cbn. rewrite He4, He3, He2, He1.
        eexists. rewrite <- app_assoc. split; [reflexivity | discriminate]. }
    unfold sys_unlink.
    pose proof (sys_status_spec (Unlink path) w4) as Hu.
    destruct (sys_status (Unlink path) w4) as [u w5].
    destruct Hu as (Hu & Hc5 & He5 & Hs5).
    apply (f_equal (@length _)) in Hs5. rewrite length_tl in Hs5.
    destruct Hu as [-> | ->]; cbn [Z.eqb negb].
    + destruct (IH (set_fd (-1) strm) w5 ltac:(lia))
        as (r & s & w' & pre & last & Heq & Hc & Hnf & Hg & Hn & Hnt & Hstd
            & Hmm & Hcase).
      exists r, s, w',
        ([Open path Open_write_excl (-1); Isatty STDERR_FILENO t2;
          Isatty STDIN_FILENO t0; Getchar char_y; Unlink path 0] ++ pre),
        last.
      split; [exact Heq |].
      split; [rewrite Hc, Hc5, Hc4, Hc3, Hc2, Hc1, <- !app_assoc;
              reflexivity |].
      split; [apply Forall_app; split; [no_free_concrete | exact Hnf] |].
      split.
      { rewrite <- app_assoc. apply unlink_guarded_app; [| exact Hg].
        guard_concrete. }
      repeat split; try assumption.
      destruct Hcase as [Hok | (Hr' & Hfd & Hl & l & Hl' & Hnil)];
        [now left | right].
      repeat split; try assumption.
      exists (Line (Overwrite_question (name_text strm)) None :: l).
      split; [| discriminate].
      rewrite Hl', He5, He4, He3, He2, He1. cbn.
      now rewrite <- app_assoc.
    + eexists (-1), _, _,
        [Open path Open_write_excl (-1); Isatty STDERR_FILENO t2;
         Isatty STDIN_FILENO t0; Getchar char_y; Unlink path (-1)], _.
      close_branch ltac:(rewrite Hc5, Hc4, Hc3, Hc2, Hc1).
      right. repeat split. cbn. rewrite He5, He4, He3, He2, He1.
      eexists. rewrite <- app_assoc. split; [reflexivity | discriminate].
Qed.


(** X19: [xopen_for_write] deletes nothing but the file it was asked to
    open, and without [overwrite] only on request: every [unlink] it makes
    is of [path], and when [overwrite] is false the call just before it is
    a [getchar] that returned 'y'. *)
Theorem xopen_for_write_unlinks
        (path : list Z) (overwrite : bool) (strm : file_stream) (w : world) :
  (Z.of_nat (length path) + 3) * tchar_size < 2 ^ size_bits ->
  exists r s w' calls,
    xopen_for_write size_bits tchar_size EEXIST (Some path) overwrite strm w
    = Some (r, s, w') /\
    w_calls w' = w_calls w ++ calls /\
    unlink_guarded path overwrite calls.
Proof.
  intros Hfit.
  destruct (quote_path_spec path w Hfit)
    as (a & w1 & Hcalls & _ & _ & _ & _ & Heq).
  unfold xopen_for_write. rewrite Heq.
  destruct (Z.eqb_spec a 0) as [-> | Ha]; cbn [mbind option_bind].
  - eexists (-1), _, _, [_; _]. split; [reflexivity |].
    cbn. rewrite Hcalls, <- app_assoc.
    split; [reflexivity | guard_concrete].
  - set (strm1 := set_name _ _ _).
    destruct (open_retry_spec path overwrite (S (length (w_script w1)))
                              strm1 w1 ltac:(lia))
      as (r & s & w' & pre & last & Hrun & Hc & _ & Hg & _).
    exists r, s, w',
      ([Malloc (to_size size_bits
                  ((1 + Z.of_nat (length path) + 1 + 1) * tchar_size)) a]
       ++ pre ++ [last]).
    split; [exact Hrun |].
    split; [rewrite Hc, Hcalls, <- !app_assoc; reflexivity |].
    apply unlink_guarded_app; [guard_concrete | exact Hg].
Qed.

(** *** Mapping *)

Variable ENOMEM : Z.

(** X20: [map_file_contents] changes nothing of the stream but the
    mapping.  It returns 0 exactly when [mmap] gave a mapping, which the
    stream then holds together with its size, and nothing is printed.
    Otherwise it returns -1 after printing exactly one line, and the size
    is left as it was; a size above [SIZE_MAX] is refused without calling
    [mmap] and leaves the whole stream as it was, a failed [mmap] leaves a
    null mapping. *)
Theorem map_file_contents_result
        (strm : file_stream) (size : Z) (w : world) :
  let '(r, s, w') := map_file_contents size_bits ENOMEM strm size w in
  fd s = fd strm /\ name s = name strm /\ name_text s = name_text strm /\
  is_standard_stream s = is_standard_stream strm /\
  ((r = 0 /\ size <= SIZE_MAX size_bits /\
    0 < mmap_mem s /\ mmap_size s = size /\
    w_stderr w' = w_stderr w /\
    w_calls w' = w_calls w ++ [Mmap size (fd strm) (mmap_mem s)]) \/
   (r = -1 /\ mmap_size s = mmap_size strm /\
    (exists l, w_stderr w' = w_stderr w ++ [l]) /\
    if size >? SIZE_MAX size_bits then s = strm /\ w_calls w' = w_calls w
    else mmap_mem s = 0 /\
         w_calls w' = w_calls w ++ [Mmap size (fd strm) (-1)])).
Proof.
  unfold map_file_contents.
  destruct (Z.gtb_spec size (SIZE_MAX size_bits)) as [Hbig | Hfit].
  - repeat split. right. cbn. repeat split. eauto.
  - pose proof (sys_mmap_spec size (fd strm) w) as Hm.
    destruct (sys_mmap size (fd strm) w) as [m w1].
    destruct Hm as (Hm & Hcalls & Herr).
    destruct (Z.eqb_spec m (-1)) as [-> | Hok].
    + repeat split. right.
      destruct (w_errno w1 =? ENOMEM); cbn; rewrite Hcalls, Herr;
        repeat split; eauto.
    + repeat split. left. cbn. rewrite Hcalls, Herr.
      repeat split; lia.
Qed.

(** X21: a mapping made by [map_file_contents] is released by [xclose],
    with the address and the size that were mapped; after a failed
    [map_file_contents] on a stream without a mapping, [xclose] unmaps
    nothing.  In both cases the descriptor is closed and the name freed. *)
Theorem map_then_close (strm : file_stream) (size : Z) (w : world) :
  0 <= fd strm -> is_standard_stream strm = false -> mmap_mem strm = 0 ->
  let '(r, s, w1) := map_file_contents size_bits ENOMEM strm size w in
  let '(c, s', w2) := xclose s w1 in
  mmap_mem s' = 0 /\
  w_calls w2 =
    w_calls w1 ++ Close (fd strm) c :: Free (name strm)
                  :: (if r =? 0 then [Munmap (mmap_mem s) size] else []).
Proof.
  intros Hfd Hstd Hnomap. unfold map_file_contents.
  destruct (size >? SIZE_MAX size_bits).
  - destruct (xclose_open strm (msg (Too_large (name_text strm)) w) Hfd Hstd)
      as (c & s' & w2 & -> & Hm' & ->).
    rewrite Hnomap. split; [exact Hm' | reflexivity].
  - pose proof (sys_mmap_spec size (fd strm) w) as Hm.
    destruct (sys_mmap size (fd strm) w) as [m w1].
    destruct Hm as (Hm & _ & _).
    destruct (Z.eqb_spec m (-1)) as [-> | Hok].
    + set (w1' := if w_errno w1 =? ENOMEM then _ else _).
      destruct (xclose_open (set_mmap_mem 0 (set_mmap_mem (-1) strm)) w1'
                            Hfd Hstd)
        as (c & s' & w2 & -> & Hm' & ->).
      split; [exact Hm' | reflexivity].
    + destruct (xclose_open (set_mmap_size size (set_mmap_mem m strm)) w1
                            Hfd Hstd)
        as (c & s' & w2 & -> & Hm' & ->).
      split; [exact Hm' |]. cbn.
      destruct (Z.eqb_spec m 0); [lia | reflexivity].
Qed.

End StreamFacts.

Section StreamExamples.
Import ProgIO.

Lemma path_example_no_nul : 0 ∉ [97; 98].
Proof.
  intros H. apply elem_of_cons in H as [H | H]; [discriminate H |].
  apply elem_of_cons in H as [H | H]; [discriminate H |].
  now apply elem_of_nil in H.
Defined.


Lemma xopen_for_read_result_witness :
  exists r s w' a,
    xopen_for_read 64 1 (Some [97; 98]) io_stream_example io_world_example
    = Some (r, s, w') /\
    let size := to_size 64 ((1 + Z.of_nat (length [97; 98]) + 1 + 1) * 1) in
    (a = 0 /\ r = -1 /\ name s = Null /\
     w_calls w' = w_calls io_world_example ++ [Malloc size 0]) \/
    (a <> 0 /\ r = -1 /\ fd s = -1 /\
     w_calls w' =
       w_calls io_world_example
       ++ [Malloc size a; Open [97; 98] Open_read (-1); Free (Heap a)] /\
     (exists e, w_stderr w' =
                w_stderr io_world_example
                ++ [Line (Cant_open_for_reading
                            (char_dquote :: [97; 98] ++ [char_dquote]))
                         (Some e)]) /\
     exists s', xclose s w' = (0, s', w')) \/
    (a <> 0 /\ r = 0 /\ 0 <= fd s /\ name s = Heap a /\
     name_text s = char_dquote :: [97; 98] ++ [char_dquote] /\
     is_standard_stream s = false /\ mmap_mem s = 0 /\
     w_stderr w' = w_stderr io_world_example /\
     w_calls w' =
       w_calls io_world_example
       ++ [Malloc size a; Open [97; 98] Open_read (fd s)] /\
     exists c s' w'',
       xclose s w' = (c, s', w'') /\
       w_calls w'' = w_calls w' ++ [Close (fd s) c; Free (Heap a)]).
Proof.
  apply (xopen_for_read_result 64 1 ltac:(lia) [97; 98] io_stream_example
                               io_world_example).
  - exact path_example_no_nul.
  - cbn. lia.
Defined.

(** A run of [xopen_for_write] that finds the file, asks, deletes it and
    opens it at the second attempt. *)
Example xopen_for_write_retry_trace :
  match xopen_for_write 64 1 17 (Some [97; 98]) false io_stream_example
                        io_world_retry with
  | Some (r, s, w') =>
      r = 0 /\ fd s = 4 /\
      w_calls w' =
        [Malloc 5 5; Open [97; 98] Open_write_excl (-1);
         Isatty STDERR_FILENO 1; Isatty STDIN_FILENO 1; Getchar char_y;
         Unlink [97; 98] 0; Open [97; 98] Open_write_excl 4]
  | None => False
  end.
Proof. vm_compute. repeat split. Qed.


Lemma xopen_for_write_unlinks_witness :
  exists r s w' calls,
    xopen_for_write 64 1 17 (Some [97; 98]) false io_stream_example
                    io_world_retry
    = Some (r, s, w') /\
    w_calls w' = w_calls io_world_retry ++ calls /\
    unlink_guarded [97; 98] false calls.
Proof.
  apply (xopen_for_write_unlinks 64 1 ltac:(lia) 17 [97; 98] false
                                 io_stream_example io_world_retry).
  cbn. lia.
Defined.

Lemma map_then_close_witness :
  let '(r, s, w1) :=
    map_file_contents 64 12 io_stream_example 5 io_world_example in
  let '(c, s', w2) := xclose s w1 in
  mmap_mem s' = 0 /\
  w_calls w2 =
    w_calls w1 ++ Close (fd io_stream_example) c
                  :: Free (name io_stream_example)
                  :: (if r =? 0 then [Munmap (mmap_mem s) 5] else []).
Proof.
  apply (map_then_close 64 12 io_stream_example 5 io_world_example).
  - cbn. lia.
  - reflexivity.
  - reflexivity.
Defined.

End StreamExamples.

(** * The text printed by the generator *)

Section OutputFacts.
Import GenOutput.

Lemma digit_value_hex_digit (d : Z) :
  0 <= d < 16 -> digit_value (hex_digit d) = d /\ is_hex_char (hex_digit d).
Proof.
  intros Hd. unfold digit_value, hex_digit, is_hex_char.
  destruct (Z.ltb_spec d 10);
    [destruct (Z.ltb_spec (48 + d) 58) | destruct (Z.ltb_spec (97 + (d - 10)) 58)];
    lia.
Qed.

Lemma hex_value_snoc (ds : list Z) (c : Z) :
  hex_value (ds ++ [c]) = hex_value ds * 16 + digit_value c.
Proof. unfold hex_value. now rewrite fold_left_app. Qed.

Lemma hex_value_zeros (n : nat) (ds : list Z) :
  hex_value (repeat char_0 n ++ ds) = hex_value ds.
Proof.
  unfold hex_value. rewrite fold_left_app. f_equal.
  induction n as [| n IH]; [reflexivity | exact IH].
Qed.

Lemma hex_digits_spec (fuel : nat) :
  forall v : Z, 0 <= v < 16 ^ Z.of_nat fuel ->
    hex_value (hex_digits fuel v) = v /\
    Forall is_hex_char (hex_digits fuel v) /\
    (length (hex_digits fuel v) <= fuel)%nat.
Proof.
  induction fuel as [| fuel IH]; intros v Hv.
  - cbn in *. repeat split; [unfold hex_value; cbn; lia | constructor | lia].
  - cbn [hex_digits].
    assert (Hpow : 16 ^ Z.of_nat (S fuel) = 16 * 16 ^ Z.of_nat fuel).
    { rewrite Nat2Z.inj_succ, Z.pow_succ_r by lia. reflexivity. }
    pose proof (Z.div_mod v 16 ltac:(lia)) as Hdm.
    pose proof (Z.mod_pos_bound v 16 ltac:(lia)) as Hm.
    destruct (digit_value_hex_digit (v mod 16) Hm) as [Hval Hchar].
    rewrite hex_value_snoc, Hval, length_app. cbn [length].
    destruct (Z.eqb_spec (v / 16) 0) as [Hz | Hnz].
    + cbn [app length]. split; [unfold hex_value; cbn; lia |].
      split; [constructor; [exact Hchar | constructor] | lia].
    + assert (Hq : 0 <= v / 16 < 16 ^ Z.of_nat fuel).
      { split; [apply Z.div_pos; lia |].
        apply Z.div_lt_upper_bound; lia. }
      destruct (IH (v / 16) Hq) as (Hv' & Hc' & Hl').
      rewrite Hv'. split; [lia |]. split; [| lia].
      apply Forall_app. split; [exact Hc' |].
      constructor; [exact Hchar | constructor].
Qed.

Lemma hex_digits_length (fuel : nat) (v : Z) :
  (length (hex_digits fuel v) <= fuel)%nat.
Proof.
  revert v. induction fuel as [| fuel IH]; intros v; cbn [hex_digits];
    [cbn; lia |].
  rewrite length_app. cbn [length].
  destruct (v / 16 =? 0); [cbn; lia | specialize (IH (v / 16)); lia].
Qed.

Lemma format_08x_length (v : Z) : length (format_08x v) = 8%nat.
Proof.
  unfold format_08x. cbv zeta.
  pose proof (hex_digits_length 8 v).
  rewrite length_app, repeat_length. lia.
Qed.

Lemma format_08x_value (v : Z) :
  is_u32 v ->
  hex_value (format_08x v) = v /\ Forall is_hex_char (format_08x v).
Proof.
  intros Hv. unfold format_08x. cbv zeta.
  destruct (hex_digits_spec 8 v) as (Hval & Hchar & _).
  { unfold is_u32 in Hv. change (16 ^ Z.of_nat 8) with (2 ^ 32). exact Hv. }
  rewrite hex_value_zeros. split; [exact Hval |].
  apply Forall_app. split; [| exact Hchar].
  induction (8 - length (hex_digits 8 v))%nat as [| n IH]; cbn [repeat];
    constructor; [left; unfold char_0; lia | exact IH].
Qed.

Lemma print_body_line (entries : list Z) (i : nat) (out : list Z) :
  (i * 4 + 3 < length entries)%nat ->
  (out ← Some out;
   let out := out ++ [char_tab] in
   out ← for_loop 0 4
           (fun j out =>
              out ← out;
              v ← entries !! (i * 4 + j)%nat;
              let out := out ++ print_entry v in
              Some (if negb (j =? 3)%nat then out ++ [char_space]
                    else out))
           (Some out);
   Some (out ++ [char_newline]))
  = Some (out ++ line_of entries i).
Proof.
  intros Hi. unfold for_loop. cbn [Nat.sub seq fold_left mbind option_bind].
  rewrite !(list_lookup_lookup_total_lt entries) by lia.
  cbn [mbind option_bind Nat.eqb negb].
  unfold line_of. rewrite <- !app_assoc. reflexivity.
Qed.

Lemma print_256_entries_lines (entries out : list Z) :
  (256 <= length entries)%nat ->
  print_256_entries entries out
  = Some (out ++ concat (map (line_of entries) (seq 0 64))).
Proof.
  intros Hlen. unfold print_256_entries.
  change (256 / 4)%nat with 64%nat.
  pose (P := fun (i : nat) (s : option (list Z)) =>
               s = Some (out ++ concat (map (line_of entries) (seq 0 i)))).
  apply (for_loop_ind P); subst P; cbn beta.
  - lia.
  - cbn. now rewrite app_nil_r.
  - intros i s Hi ->.
    rewrite (print_body_line entries i _ ltac:(lia)).
    rewrite seq_S, map_app, concat_app. cbn [map concat Nat.add].
    now rewrite app_nil_r, <- app_assoc.
Qed.

Lemma concat_fixed_drop {A : Type} (n : nat) (ls : list (list A)) :
  Forall (fun l => length l = n) ls ->
  forall i, drop (n * i) (concat ls) = concat (drop i ls).
Proof.
  induction 1 as [| l ls Hl _ IH]; intros i.
  - rewrite drop_nil. cbn. now rewrite drop_nil.
  - destruct i as [| i].
    + now rewrite Nat.mul_0_r.
    + cbn [concat drop]. rewrite <- IH, <- Hl.
      replace (length l * S i)%nat with (length l + length l * i)%nat by lia.
      apply drop_app_add.
Qed.

Lemma concat_fixed_length {A : Type} (n : nat) (ls : list (list A)) :
  Forall (fun l => length l = n) ls ->
  length (concat ls) = (n * length ls)%nat.
Proof.
  induction 1 as [| l ls Hl _ IH]; cbn [concat length]; [lia |].
  rewrite length_app, IH, Hl. lia.
Qed.

Lemma line_of_length (entries : list Z) (i : nat) :
  length (line_of entries i) = 49%nat.
Proof.
  unfold line_of, print_entry. rewrite !length_app, !format_08x_length.
  reflexivity.
Qed.

Lemma line_of_layout (entries : list Z) (i : nat) (rest : list Z) :
  (line_of entries i ++ rest) !! 0%nat = Some char_tab /\
  (line_of entries i ++ rest) !! 48%nat = Some char_newline /\
  forall j, (j < 4)%nat ->
    take 11 (drop (1 + 12 * j) (line_of entries i ++ rest))
    = print_entry (entries !!! (i * 4 + j)%nat).
Proof.
  unfold line_of, print_entry.
  pose proof (format_08x_length (entries !!! (i * 4 + 0)%nat)) as H0.
  pose proof (format_08x_length (entries !!! (i * 4 + 1)%nat)) as H1.
  pose proof (format_08x_length (entries !!! (i * 4 + 2)%nat)) as H2.
  pose proof (format_08x_length (entries !!! (i * 4 + 3)%nat)) as H3.
  destruct (format_08x (entries !!! (i * 4 + 0)%nat))
    as [| ? [| ? [| ? [| ? [| ? [| ? [| ? [| ? [| ? ?]]]]]]]]] eqn:E0;
    try discriminate H0.
  destruct (format_08x (entries !!! (i * 4 + 1)%nat))
    as [| ? [| ? [| ? [| ? [| ? [| ? [| ? [| ? [| ? ?]]]]]]]]] eqn:E1;
    try discriminate H1.
  destruct (format_08x (entries !!! (i * 4 + 2)%nat))
    as [| ? [| ? [| ? [| ? [| ? [| ? [| ? [| ? [| ? ?]]]]]]]]] eqn:E2;
    try discriminate H2.
  destruct (format_08x (entries !!! (i * 4 + 3)%nat))
    as [| ? [| ? [| ? [| ? [| ? [| ? [| ? [| ? [| ? ?]]]]]]]]] eqn:E3;
    try discriminate H3.
  split; [reflexivity |]. split; [reflexivity |].
  intros j Hj.
  destruct j as [| [| [| [| j]]]]; [| | | | lia];
    rewrite ?E0, ?E1, ?E2, ?E3; reflexivity.
Qed.

(** X22: [print_256_entries] reads the 256 entries and nothing beyond
    them, and appends 64 lines of 49 characters to the output; each line
    starts with a tab and ends in a newline.  Entry [k] is printed at a
    fixed place, [49 * (k / 4) + 1 + 12 * (k mod 4)]: the characters "0x",
    eight digits among [0-9a-f] whose hexadecimal value is the entry, and a
    comma.  So the text printed determines the 32-bit entries. *)
Theorem print_256_entries_layout (entries out : list Z) :
  (256 <= length entries)%nat -> Forall is_u32 (take 256 entries) ->
  exists text,
    print_256_entries entries out = Some (out ++ text) /\
    length text = (64 * 49)%nat /\
    (forall i, (i < 64)%nat ->
       text !! (49 * i)%nat = Some char_tab /\
       text !! (49 * i + 48)%nat = Some char_newline) /\
    forall k, (k < 256)%nat ->
      exists v ds,
        entries !! k = Some v /\
        take 11 (drop (entry_pos k) text)
        = [char_0; char_x] ++ ds ++ [char_comma] /\
        length ds = 8%nat /\ Forall is_hex_char ds /\ hex_value ds = v.
Proof.
  intros Hlen Hu32.
  set (lines := map (line_of entries) (seq 0 64)).
  assert (Hfixed : Forall (fun l => length l = 49%nat) lines).
  { apply Forall_map, Forall_forall. intros i _. apply line_of_length. }
  assert (Hline : forall i, (i < 64)%nat ->
            exists rest, drop (49 * i) (concat lines)
                         = line_of entries i ++ rest).
  { intros i Hi. rewrite (concat_fixed_drop 49 lines Hfixed i).
    subst lines. rewrite skipn_map, drop_seq.
    replace (64 - i)%nat with (S (63 - i)) by lia.
    cbn [seq map concat Nat.add]. eauto. }
  exists (concat lines). split; [exact (print_256_entries_lines _ _ Hlen) |].
  split.
  { clear Hline. subst lines.
    rewrite (concat_fixed_length 49) by exact Hfixed.
    now rewrite length_map, length_seq. }
  split.
  - intros i Hi. destruct (Hline i Hi) as [rest Hrest].
    destruct (line_of_layout entries i rest) as (Htab & Hnl & _).
    rewrite <- (Nat.add_0_r (49 * i)) at 1.
    rewrite <- !lookup_drop, Hrest. now split.
  - intros k Hk.
    pose proof (Nat.div_mod_eq k 4) as Hdm.
    pose proof (Nat.mod_upper_bound k 4 ltac:(lia)) as Hmod.
    assert (Hdiv : (k / 4 < 64)%nat)
      by (apply Nat.Div0.div_lt_upper_bound; lia).
    destruct (Hline (k / 4)%nat Hdiv) as [rest Hrest].
    destruct (line_of_layout entries (k / 4) rest) as (_ & _ & Hentry).
    specialize (Hentry (k mod 4)%nat Hmod).
    replace (k / 4 * 4 + k mod 4)%nat with k in Hentry by lia.
    exists (entries !!! k), (format_08x (entries !!! k)).
    assert (Hv : entries !! k = Some (entries !!! k))
      by (apply list_lookup_lookup_total_lt; lia).
    split; [exact Hv |].
    split.
    { unfold entry_pos.
      replace (49 * (k / 4) + 1 + 12 * (k mod 4))%nat
        with (49 * (k / 4) + (1 + 12 * (k mod 4)))%nat by lia.
      rewrite <- drop_drop, Hrest. exact Hentry. }
    split; [apply format_08x_length |].
    assert (Hu : is_u32 (entries !!! k)).
    { apply (Forall_lookup_1 _ _ k _ Hu32).
      rewrite lookup_take_lt by lia. exact Hv. }
    destruct (format_08x_value _ Hu) as [Hval Hchars]. now split.
Qed.

End OutputFacts.

Lemma print_256_entries_layout_witness :
  exists text,
    GenOutput.print_256_entries (Gen.crc32_rolling Gen.main_tables) []
    = Some ([] ++ text) /\
    length text = (64 * 49)%nat /\
    (forall i, (i < 64)%nat ->
       text !! (49 * i)%nat = Some GenOutput.char_tab /\
       text !! (49 * i + 48)%nat = Some GenOutput.char_newline) /\
    forall k, (k < 256)%nat ->
      exists v ds,
        Gen.crc32_rolling Gen.main_tables !! k = Some v /\
        take 11 (drop (entry_pos k) text)
        = [GenOutput.char_0; GenOutput.char_x] ++ ds
          ++ [GenOutput.char_comma] /\
        length ds = 8%nat /\ Forall is_hex_char ds /\ hex_value ds = v.
Proof.
  apply (print_256_entries_layout (Gen.crc32_rolling Gen.main_tables) []).
  - rewrite rolling_length. lia.
  - apply Forall_take, rolling_entries_u32.
Defined.
